(** * Balaio: a shallow embedding of the supervisor, the checkout runner,
      the shared utilities and the validation-pipe base class.

    Python 2 byte strings are lists of [ascii]; [None] is [option]'s [None];
    dictionaries are stdpp [gmap]s; code that can raise returns a [result]. *)

From Stdlib Require Import ZArith NArith Ascii String DecimalString DecimalN DecimalPos Lia.
From stdpp Require Import base option list gmap strings.

Local Open Scope Z_scope.

(** ** Python values the embedded code handles *)

Abbreviation str := (list ascii).

(** [$"abc"] is the Python literal ['abc']. *)
Notation "$ s" := (list_ascii_of_string s%string) (at level 1, format "$ s").

Inductive exn : Type :=
| TypeError (msg : str)
| ValueError (msg : str)
| KeyError (key : str)
| IndexError
| StopIteration
| UnmetPrecondition
| NotImplementedError
| ExternalError (tag : nat)
| OSError (errno : nat).

Inductive result (A : Type) : Type :=
| Return (a : A)
| Raise (e : exn).
Arguments Return {A} a.
Arguments Raise {A} e.

#[global] Instance result_ret : MRet result := fun A a => Return a.

#[global] Instance result_bind : MBind result := fun A B k r =>
  match r with
  | Return a => k a
  | Raise e => Raise e
  end.

#[global] Instance exn_eq_dec : EqDecision exn.
Proof. solve_decision. Defined.

(** The argument of [validate_issn]: any Python object.  [basestring]
    covers [PyStr] only. *)
Inductive pyval : Type :=
| PyNone
| PyBool (b : bool)
| PyInt (z : Z)
| PyStr (s : str).

Module Py.

(** [c in string.whitespace] *)
Definition is_space (c : ascii) : bool :=
  match c with
  | "009" | "010" | "011" | "012" | "013" | " " => true
  | _ => false
  end%char.

(** [s.lstrip()], [s.rstrip()], [s.strip()] *)
Fixpoint lstrip (s : str) : str :=
  match s with
  | c :: r => if is_space c then lstrip r else s
  | [] => []
  end.

Definition rstrip (s : str) : str := rev (lstrip (rev s)).

Definition strip (s : str) : str := rstrip (lstrip s).

(** [c.lower()] on one byte, in the C locale *)
Definition lower_ascii (c : ascii) : ascii :=
  let n := nat_of_ascii c in
  if (65 <=? n)%nat && (n <=? 90)%nat then ascii_of_nat (n + 32) else c.

Definition lower (s : str) : str := lower_ascii <$> s.

(** [s.startswith(sub)] *)
Fixpoint startswith (sub s : str) : bool :=
  match sub, s with
  | [], _ => true
  | a :: sub', b :: s' => if Ascii.eqb a b then startswith sub' s' else false
  | _ :: _, [] => false
  end.

(** The least index at which [sub] occurs in [s]. *)
Fixpoint index_of (sub s : str) : option nat :=
  if startswith sub s then Some 0%nat
  else match s with
       | [] => None
       | _ :: s' => S <$> index_of sub s'
       end.

(** [s.find(sub)]: the least index, or [-1]. *)
Definition find (sub s : str) : Z :=
  match index_of sub s with
  | Some i => Z.of_nat i
  | None => -1
  end.

(** [sub in s] *)
Definition contains (sub s : str) : bool :=
  match index_of sub s with Some _ => true | None => false end.

(** A slice bound as Python clamps it: a negative bound counts from the
    end, and every bound is cut to [0 .. len(s)]. *)
Definition clamp (s : str) (i : Z) : nat :=
  let n := Z.of_nat (length s) in
  Z.to_nat (Z.min n (Z.max 0 (if i <? 0 then n + i else i))).

(** [s[i:]], [s[:j]] and [s[i:j]] *)
Definition slice_from (s : str) (i : Z) : str := drop (clamp s i) s.
Definition slice_to (s : str) (j : Z) : str := take (clamp s j) s.
Definition slice (s : str) (i j : Z) : str :=
  drop (clamp s i) (take (clamp s j) s).

(** [s.replace(c, '')] for a one-byte [c] *)
Definition remove_char (c : ascii) (s : str) : str :=
  filter (fun x => x <> c) s.

(** [s.split(sep)] for a one-byte [sep]: no run of separators is merged. *)
Fixpoint split (sep : ascii) (s : str) : list str :=
  match s with
  | [] => [[]]
  | c :: r =>
      if Ascii.eqb c sep then [] :: split sep r
      else match split sep r with
           | w :: ws => (c :: w) :: ws
           | [] => [[c]]
           end
  end.

(** [str(n)] for a non-negative integer *)
Definition str_of_N (n : N) : str :=
  list_ascii_of_string (NilEmpty.string_of_uint (N.to_uint n)).

(** [str(z)] *)
Definition str_of_Z (z : Z) : str :=
  if z <? 0 then "-"%char :: str_of_N (Z.to_N (- z)) else str_of_N (Z.to_N z).

Definition invalid_literal (s : str) : exn :=
  ValueError ($"invalid literal for int() with base 10: '" ++ s ++ $"'").

(** [int(s)]: surrounding whitespace is dropped, one sign is allowed, and
    at least one decimal digit must follow; anything else is a
    [ValueError]. *)
Definition int (s : str) : result Z :=
  let t := strip s in
  let '(neg, ds) :=
    match t with
    | "-"%char :: r => (true, r)
    | "+"%char :: r => (false, r)
    | _ => (false, t)
    end in
  match ds with
  | [] => Raise (invalid_literal s)
  | _ :: _ =>
      match NilEmpty.uint_of_string (string_of_list_ascii ds) with
      | Some d =>
          let n := Z.of_N (N.of_uint d) in
          Return (if neg : bool then - n else n)
      | None => Raise (invalid_literal s)
      end
  end.

(** [s[i]]: one byte as a string, [IndexError] out of range *)
Definition getitem (s : str) (i : Z) : result str :=
  let n := Z.of_nat (length s) in
  let j := if i <? 0 then n + i else i in
  if (0 <=? j) && (j <? n)
  then match s !! Z.to_nat j with
       | Some c => Return [c]
       | None => Raise IndexError
       end
  else Raise IndexError.

(** [bool(x)] for [None] or a string *)
Definition truthy (x : option str) : bool :=
  match x with
  | Some (_ :: _) => true
  | _ => false
  end.

(** [c.upper()] on one byte, in the C locale *)
Definition upper_ascii (c : ascii) : ascii :=
  let n := nat_of_ascii c in
  if (97 <=? n)%nat && (n <=? 122)%nat then ascii_of_nat (n - 32) else c.

Definition upper (s : str) : str := upper_ascii <$> s.

(** [s.split()]: the maximal runs of bytes that are not whitespace. *)
Fixpoint split_ws (s : str) : list str :=
  match s with
  | [] => []
  | c :: r =>
      if is_space c then split_ws r
      else match r with
           | [] => [[c]]
           | c' :: _ =>
               if is_space c' then [c] :: split_ws r
               else match split_ws r with
                    | w :: ws => (c :: w) :: ws
                    | [] => [[c]]
                    end
           end
  end.

(** [sep.join(words)] *)
Fixpoint join (sep : str) (words : list str) : str :=
  match words with
  | [] => []
  | [w] => w
  | w :: ws => w ++ sep ++ join sep ws
  end.

(** [s.lstrip(c)] and [s.rstrip(c)] for a one-byte [c] *)
Fixpoint lstrip_char (c : ascii) (s : str) : str :=
  match s with
  | x :: r => if Ascii.eqb x c then lstrip_char c r else s
  | [] => []
  end.

Definition rstrip_char (c : ascii) (s : str) : str :=
  rev (lstrip_char c (rev s)).

(** [s.rfind(c)] for a one-byte [c]: the greatest index, or [-1]. *)
Fixpoint rindex_of (c : ascii) (s : str) : option nat :=
  match s with
  | [] => None
  | x :: r =>
      match rindex_of c r with
      | Some i => Some (S i)
      | None => if Ascii.eqb x c then Some 0%nat else None
      end
  end.

Definition rfind (c : ascii) (s : str) : Z :=
  match rindex_of c s with
  | Some i => Z.of_nat i
  | None => -1
  end.

(** [s == c * len(s)] for a one-byte [c] *)
Definition all_char (c : ascii) (s : str) : bool :=
  forallb (fun x => Ascii.eqb x c) s.

(** [s.endswith(c)] for a one-byte [c] *)
Definition endswith_char (c : ascii) (s : str) : bool :=
  match last s with
  | Some x => Ascii.eqb x c
  | None => false
  end.

(** [os.path.split(p)] of [posixpath] *)
Definition path_split (p : str) : str * str :=
  let i := rfind "/" p + 1 in
  let head := slice_to p i in
  let tail := slice_from p i in
  let head :=
    match head with
    | [] => head
    | _ :: _ => if negb (all_char "/" head) then rstrip_char "/" head else head
    end in
  (head, tail).

(** [os.path.join(a, b)] of [posixpath] *)
Definition path_join (a b : str) : str :=
  if startswith $"/" b then b
  else match a with
       | [] => b
       | _ :: _ => if endswith_char "/" a then a ++ b else a ++ $"/" ++ b
       end.

End Py.

(** ** utils.py *)

Module Utils.

(** *** ISSN *)

(** The loop of [calc_check_digit_issn]:
    [for i, v in enumerate(...): total = total + ((8-i) * int(v))]. *)
Fixpoint weighted_total (i : Z) (vs : str) (total : Z) : result Z :=
  match vs with
  | [] => Return total
  | v :: vs' =>
      d ← Py.int [v];
      weighted_total (i + 1) vs' (total + (8 - i) * d)
  end.

Definition calc_check_digit_issn (issn : str) : result str :=
  let lissn := Py.remove_char "-" issn in
  total ← weighted_total 0 (removelast lissn) 0;
  let remainder := total mod 11 in
  let check_digit := if remainder =? 0 then 0 else 11 - remainder in
  Return (if check_digit =? 10 then $"X" else Py.str_of_Z check_digit).

Definition validate_issn (issn : pyval) : result str :=
  match issn with
  | PyStr s =>
      if negb (length s =? 9)%nat then Raise (ValueError $"Invalid length")
      else if negb (Py.contains $"-" s) then Raise (ValueError $"Invalid format")
      else
        cd ← calc_check_digit_issn s;
        final ← Py.getitem s (-1);
        if negb (bool_decide (cd = final)) then Raise (ValueError $"Invaid ISSN")
        else Return s
  | _ => Raise (TypeError $"Invalid type")
  end.

(** [try: return bool(validate_issn(issn))
     except (ValueError, TypeError): return False] *)
Definition is_valid_issn (issn : pyval) : result bool :=
  match validate_issn issn with
  | Return s => Return (Py.truthy (Some s))
  | Raise (ValueError _) | Raise (TypeError _) => Return false
  | Raise e => Raise e
  end.

(** *** Issue designators *)

Definition none_if_empty (s : str) : option str :=
  match s with [] => None | _ => Some s end.

Definition parse_issue_tag (issue_tag_content : option str)
  : option str * option str * option str :=
  match issue_tag_content with
  | Some ((_ :: _) as content) =>
      let lower_issue := Py.lower content in
      if Py.contains $"sup" lower_issue then
        let number :=
          Py.strip (Py.slice lower_issue 0 (Py.find $"sup" lower_issue)) in
        let number := none_if_empty number in
        let suppl_label :=
          Py.slice_from content (Py.find $"sup" lower_issue) in
        let suppl_label :=
          if Py.contains $" " suppl_label
          then Py.slice suppl_label 0 (Py.find $" " suppl_label)
          else suppl_label in
        let suppl :=
          Py.strip (Py.slice_from content
                      (Py.find suppl_label content
                       + Z.of_nat (length suppl_label))) in
        let suppl := none_if_empty suppl in
        (number, Some suppl_label, suppl)
      else (Some content, None, None)
  | _ => (None, None, None)
  end.

Definition supplement_type (volume number suppl : option str)
  : option str * option str :=
  if Py.truthy number then (None, suppl) else (suppl, None).

(** *** Framed messages over a byte stream *)

(** The serializer handed to [send_message] and [recv_messages] as
    [pickle_dep]. *)
Class Pickle (Msg : Type) := {
  dumps : Msg -> str;
  loads : str -> result Msg
}.

(** A readable file object is the bytes not read yet.
    [stream.readline()] returns the bytes up to and including the first
    line feed, or everything left when there is none. *)
Fixpoint readline (stream : str) : str * str :=
  match stream with
  | [] => ([], [])
  | c :: r =>
      if Ascii.eqb c "010" then ([c], r)
      else let '(line, rest) := readline r in (c :: line, rest)
  end.

(** [stream.read(n)]: at most [n] bytes, everything when [n] is negative. *)
Definition read (n : Z) (stream : str) : str * str :=
  if n <? 0 then (stream, [])
  else (take (Z.to_nat n) stream, drop (Z.to_nat n) stream).

(** [len(s)] *)
Definition len (s : str) : Z := Z.of_nat (length s).

(** ['%s %s\n' % (data_digest, len(serialized))] *)
Definition make_header (data_digest : str) (n : Z) : str :=
  data_digest ++ $" " ++ Py.str_of_Z n ++ ["010"%char].

(** [send_message] on a writable file object, given as the bytes written
    so far; the result is the stream after the two writes.  [digest] is
    a function, so the [callable(digest)] guard never fires. *)
Definition send_message {Msg} `{Pickle Msg}
    (stream : str) (message : Msg) (digest : str -> str) : str :=
  let serialized := dumps message in
  let data_digest := digest serialized in
  let header := make_header data_digest (len serialized) in
  (stream ++ header) ++ serialized.

(** How the generator [recv_messages] stops: [StopIteration] on an empty
    header, or an exception that escapes it.  [Pending] marks a loop cut
    by the fuel of the model. *)
Inductive recv_end : Type :=
| Exhausted
| Failed (e : exn)
| Pending.

(** [in_digest, in_length = header.split(' ')] *)
Definition unpack_header (header : str) : result (str * str) :=
  match Py.split " " header with
  | [in_digest; in_length] => Return (in_digest, in_length)
  | [] | [_] => Raise (ValueError $"need more than 1 value to unpack")
  | _ => Raise (ValueError $"too many values to unpack")
  end.

(** One turn of the [while True] loop of [recv_messages]: the frame read
    (yielded message or [None] for a dropped frame) and the stream left. *)
Definition recv_frame {Msg} `{Pickle Msg}
    (stream : str) (digest : str -> str) : result (option Msg * str) :=
  let '(header, stream1) := readline stream in
  match header with
  | [] => Raise StopIteration
  | _ :: _ =>
      '(in_digest, in_length) ← unpack_header header;
      n ← Py.int in_length;
      let '(in_message, stream2) := read n stream1 in
      if bool_decide (in_digest = digest in_message)
      then m ← loads in_message; Return (Some m, stream2)
      else Return (None, stream2)
  end.

Fixpoint recv_loop {Msg} `{Pickle Msg}
    (fuel : nat) (stream : str) (digest : str -> str) : list Msg * recv_end :=
  match fuel with
  | O => ([], Pending)
  | S fuel' =>
      match recv_frame stream digest with
      | Raise StopIteration => ([], Exhausted)
      | Raise e => ([], Failed e)
      | Return (Some m, stream') =>
          let '(ms, e) := recv_loop fuel' stream' digest in (m :: ms, e)
      | Return (None, stream') => recv_loop fuel' stream' digest
      end
  end.

(** The messages [recv_messages] yields from a file object holding
    [stream], and how the iteration ends.  Every turn consumes a
    non-empty header, so [length stream] turns and a last one for the
    empty read are enough. *)
Definition recv_messages {Msg} `{Pickle Msg}
    (stream : str) (digest : str -> str) : list Msg * recv_end :=
  recv_loop (S (length stream)) stream digest.

(** *** Keyed digests *)

(** The hash object [hmac.new(secret, '', hashlib.sha1)] and its two
    methods.  Feeding a hash piece by piece is feeding it the whole. *)
Class Hmac := {
  hmac_state : Type;
  hmac_new : str -> hmac_state;
  hmac_update : hmac_state -> str -> hmac_state;
  hmac_hexdigest : hmac_state -> str;
  hmac_update_nil : forall h, hmac_update h [] = h;
  hmac_update_app :
    forall h a b, hmac_update (hmac_update h a) b = hmac_update h (a ++ b)
}.

(** What [make_digest] is handed: an object with a [read] method, given
    as the bytes it has left, a byte string, or an object of another
    type, given as the text [type(message)] prints as. *)
Inductive message : Type :=
| MsgFile (unread : str)
| MsgStr (s : str)
| MsgOther (type_repr : str).

(** [while True: chunk = message.read(1024) ...]; [None] marks a loop
    cut by the fuel of the model. *)
Fixpoint digest_chunks `{Hmac} (fuel : nat) (file : str) (hash : hmac_state)
  : option hmac_state :=
  match fuel with
  | O => None
  | S fuel' =>
      let chunk := take 1024 file in
      match chunk with
      | [] => Some hash
      | _ :: _ => digest_chunks fuel' (drop 1024 file) (hmac_update hash chunk)
      end
  end.

(** [make_digest(message, secret)].  Every turn of the loop over a file
    consumes at least one byte, so [length unread] turns and a last one
    for the empty read are enough. *)
Definition make_digest `{Hmac} (msg : message) (secret : str)
  : option (result str) :=
  let hash := hmac_new secret in
  match msg with
  | MsgFile unread =>
      hash' ← digest_chunks (S (length unread)) unread hash;
      Some (Return (hmac_hexdigest hash'))
  | MsgStr s => Some (Return (hmac_hexdigest (hmac_update hash s)))
  | MsgOther type_repr =>
      Some (Raise (TypeError ($"Unsupported type " ++ type_repr)))
  end.

(** *** Marking files *)

(** The call [os.rename(src, dst)]. *)
Inductive fs_call : Type :=
| Rename (src dst : str).

Definition prefix_file (filename prefix : str) : list fs_call :=
  let '(path, file_or_dir) := Py.path_split filename in
  let new_filename := Py.path_join path (prefix ++ file_or_dir) in
  [Rename filename new_filename].

Definition mark_as_failed (filename : str) : list fs_call :=
  prefix_file filename $"_failed_".

Definition mark_as_duplicated (filename : str) : list fs_call :=
  prefix_file filename $"_duplicated_".

(** *** Logging *)

(** The root logger and the module's flag [has_logger]. *)
Record logging : Type := {
  has_logger : bool;
  level : option str;
  handlers : list (str * Z)
}.

(** [logging.handlers.DEFAULT_TCP_LOGGING_PORT] *)
Definition DEFAULT_TCP_LOGGING_PORT : Z := 9020.

Definition setup_logging (st : logging) : logging :=
  if has_logger st then st
  else {| has_logger := true;
          level := Some $"DEBUG";
          handlers := handlers st ++ [($"localhost", DEFAULT_TCP_LOGGING_PORT)] |}.

(** *** Text *)

Definition normalize_data (data : str) : str :=
  Py.join $" " (Py.split_ws (Py.upper data)).

(** *** Issues *)

Definition issue_identification (volume number supplement : option str)
  : option str * option str * option str * option str :=
  let '(number, label, suppl) := parse_issue_tag number in
  let suppl :=
    if Py.truthy label && negb (Py.truthy suppl) then label else supplement in
  let '(volume_suppl, number_suppl) := supplement_type volume number suppl in
  let volume := Py.lstrip_char "0" <$> volume in
  let number := Py.lstrip_char "0" <$> number in
  (volume, volume_suppl, number, number_suppl).

(** *** Configuration from the environment *)

(** [Configuration.from_file] and [os.path.abspath], which the model
    does not look into. *)
Class ConfigSource := {
  Configuration : Type;
  from_file : str -> result Configuration;
  abspath : str -> str
}.

Definition config_from_env `{ConfigSource} (variable : str)
    (environ : gmap str str) : result Configuration :=
  match environ !! variable with
  | Some filepath => from_file filepath
  | None => Raise (ValueError ($"missing env variable " ++ variable))
  end.

Definition balaio_config_from_env `{ConfigSource} (environ : gmap str str)
  : result Configuration :=
  config_from_env $"BALAIO_SETTINGS_FILE" environ.

Definition alembic_config_from_env `{ConfigSource} (environ : gmap str str)
  : result Configuration :=
  config_from_env $"BALAIO_ALEMBIC_SETTINGS_FILE" environ.

(** *** Sockets as files *)

(** [FileLikeSocket.readline] on a socket whose peer has sent [sock] and
    closed: [recv(1)] returns the next byte, or the empty string once
    nothing is left, which is no line feed and is appended like any
    byte.  [chars] is the line gathered so far; [None] marks a loop cut
    by the fuel of the model. *)
Fixpoint FileLikeSocket_readline (fuel : nat) (sock : str) (chars : str)
  : option (str * str) :=
  match fuel with
  | O => None
  | S fuel' =>
      match sock with
      | [] => FileLikeSocket_readline fuel' [] (chars ++ [])
      | char :: sock' =>
          if negb (Ascii.eqb char "010")
          then FileLikeSocket_readline fuel' sock' (chars ++ [char])
          else Some (chars, sock')
      end
  end.

(** *** Messages over a socket *)

(** A connected stream socket as its reader has it: the bytes the peer
    sent, in the pieces in which [recv] hands them over, and after them
    the end of the stream. *)
Module FileLikeSocket.

(** What is still to come when [unread] is left of the first piece. *)
Definition left_of (unread : str) (rest : list str) : list str :=
  match unread with
  | [] => rest
  | _ :: _ => unread :: rest
  end.

(** [sock.recv(n)] for [n >= 0]: at most [n] bytes, and no more than the
    piece that has arrived; the empty string once the peer has closed. *)
Fixpoint recv (n : nat) (sock : list str) : str * list str :=
  match sock with
  | [] => ([], [])
  | piece :: rest =>
      match piece with
      | [] => recv n rest
      | _ :: _ => (take n piece, left_of (drop n piece) rest)
      end
  end.

(** [readline]: [recv(1)] until a line feed comes, the line returned
    without it.  [None] marks a loop cut by the fuel of the model. *)
Fixpoint readline (fuel : nat) (sock : list str) (chars : str)
  : option (str * list str) :=
  match fuel with
  | O => None
  | S fuel' =>
      let '(char, sock') := recv 1 sock in
      if negb (bool_decide (char = ["010"%char]))
      then readline fuel' sock' (chars ++ char)
      else Some (chars, sock')
  end.

(** [read(len)]: one [sock.recv(len)], which refuses a negative size. *)
Definition read (n : Z) (sock : list str) : result (str * list str) :=
  if n <? 0 then Raise (ValueError $"negative buffersize in recv")
  else Return (recv (Z.to_nat n) sock).

(** [write(bytes)] is [sock.sendall(bytes)], and [flush] does nothing:
    [sent] is what has been handed to the peer so far. *)
Definition write (sent bytes : str) : str := sent ++ bytes.

End FileLikeSocket.

(** [send_message] on a socket, given as the bytes sent on it so far:
    the header and the serialized message go out with one [sendall]
    each.  In what pieces they reach the reader is not the sender's to
    choose. *)
Definition send_message_socket {Msg} `{Pickle Msg}
    (sent : str) (message : Msg) (digest : str -> str) : str :=
  let serialized := dumps message in
  let data_digest := digest serialized in
  let header := make_header data_digest (len serialized) in
  FileLikeSocket.write (FileLikeSocket.write sent header) serialized.

(** The [stream] handed to [recv_messages]: a file object, given as the
    bytes not read yet; a listening socket, given as the connection
    [accept] returns; or a connected socket, on which [accept] raises
    [socket.error] and which is read as it is. *)
Inductive stream : Type :=
| FileObject (unread : str)
| ListeningSocket (connection : list str)
| ConnectedSocket (sock : list str).

(** One turn of the loop of [recv_messages] on a [FileLikeSocket];
    [None] when [readline] does not return within the fuel. *)
Definition recv_frame_socket {Msg} `{Pickle Msg}
    (fuel : nat) (sock : list str) (digest : str -> str)
  : option (result (option Msg * list str)) :=
  match FileLikeSocket.readline fuel sock [] with
  | None => None
  | Some (header, sock1) =>
      Some
        match header with
        | [] => Raise StopIteration
        | _ :: _ =>
            '(in_digest, in_length) ← unpack_header header;
            n ← Py.int in_length;
            '(in_message, sock2) ← FileLikeSocket.read n sock1;
            if bool_decide (in_digest = digest in_message)
            then m ← loads in_message; Return (Some m, sock2)
            else Return (None, sock2)
        end
  end.

Fixpoint recv_loop_socket {Msg} `{Pickle Msg}
    (fuel : nat) (sock : list str) (digest : str -> str)
  : list Msg * recv_end :=
  match fuel with
  | O => ([], Pending)
  | S fuel' =>
      match recv_frame_socket fuel' sock digest with
      | None => ([], Pending)
      | Some (Raise StopIteration) => ([], Exhausted)
      | Some (Raise e) => ([], Failed e)
      | Some (Return (Some m, sock')) =>
          let '(ms, e) := recv_loop_socket fuel' sock' digest in (m :: ms, e)
      | Some (Return (None, sock')) => recv_loop_socket fuel' sock' digest
      end
  end.

(** [recv_messages(stream, digest)] on any stream: what it yields within
    [fuel] turns, and how it ends.  A file object needs no fuel. *)
Definition recv_messages_on {Msg} `{Pickle Msg}
    (fuel : nat) (s : stream) (digest : str -> str) : list Msg * recv_end :=
  match s with
  | FileObject unread => recv_messages unread digest
  | ListeningSocket sock | ConnectedSocket sock =>
      recv_loop_socket fuel sock digest
  end.

End Utils.

(** ** models.py *)

Module Models.

(** Modelled from the spec: [models.Attempt], whose module is not among
    the sources; the fields are those the spec's data model lists and the
    code reads or writes.  [aid] is [attempt.articlepkg.aid]; [is_valid]
    is [None], [True] or [False]. *)
Record Attempt : Type := {
  filepath : str;
  aid : str;
  is_valid : option bool;
  proceed_to_checkout : bool;
  pending_checkout : bool;
  queued_checkout : bool;
  checkout_started_at : option Z
}.

Definition set_queued_checkout (b : bool) (a : Attempt) : Attempt :=
  {| filepath := filepath a; aid := aid a; is_valid := is_valid a;
     proceed_to_checkout := proceed_to_checkout a;
     pending_checkout := pending_checkout a;
     queued_checkout := b;
     checkout_started_at := checkout_started_at a |}.

Definition set_checkout_started_at (t : Z) (a : Attempt) : Attempt :=
  {| filepath := filepath a; aid := aid a; is_valid := is_valid a;
     proceed_to_checkout := proceed_to_checkout a;
     pending_checkout := pending_checkout a;
     queued_checkout := queued_checkout a;
     checkout_started_at := Some t |}.

End Models.

(** ** balaio.py *)

Module Balaio.

(** A child process as [terminate] sees it.  [exits] tells after how many
    half-second sleeps following the terminate request the child is gone,
    and with which exit status; [None] is a child that never exits. *)
Record Popen : Type := {
  pid : nat;
  exits : option (nat * Z)
}.

(** [p.poll()] after [elapsed] sleeps: [None] while the child runs, its
    return code afterwards. *)
Definition poll (p : Popen) (elapsed : nat) : option Z :=
  match exits p with
  | Some (k, status) => if (k <=? elapsed)%nat then Some status else None
  | None => None
  end.

(** [not x] for the value of [p.poll()]: [None] and [0] are falsy. *)
Definition not_ (x : option Z) : bool :=
  match x with
  | None => true
  | Some status => status =? 0
  end.

Inductive event : Type :=
| Terminate (pid : nat)
| Poll (pid : nat)
| Sleep
| Kill (pid : nat).

#[global] Instance event_eq_dec : EqDecision event.
Proof. solve_decision. Defined.

(** [for t_try in range(tries): ... else: p.kill()], started when
    [elapsed] sleeps have gone by: the calls made on the child, the
    kill being the last of them whether it returns or raises. *)
Fixpoint wait (p : Popen) (tries elapsed : nat) : list event :=
  match tries with
  | O => [Kill (pid p)]
  | S tries' =>
      Poll (pid p) ::
      (if not_ (poll p elapsed)
       then Sleep :: wait p tries' (S elapsed)
       else [])
  end.

Definition terminate_one (p : Popen) : list event :=
  Terminate (pid p) :: wait p 10 0.

(** [terminate(procs)]: the calls it makes on the children, in order,
    as long as every kill returns.  [terminate_outcome] below stops at
    the kill that raises. *)
Definition terminate (procs : list Popen) : list event :=
  flat_map terminate_one (rev procs).

(** [p.kill()] is [os.kill(p.pid, SIGKILL)].  When the last of the polls
    made has reaped the child, which on the way to the kill means exit
    status 0, the process is gone and the call raises [OSError]. *)
Definition reaped (p : Popen) (polls_made : nat) : bool :=
  match polls_made with
  | O => false
  | S last => bool_decide (is_Some (poll p last))
  end.

(** The loop of [wait] with what it ends in: the calls made and, for the
    kill, whether it returns. *)
Fixpoint wait_outcome (p : Popen) (tries elapsed : nat)
  : list event * result unit :=
  match tries with
  | O =>
      ([Kill (pid p)],
       if reaped p elapsed then Raise (OSError 3) else Return tt)
  | S tries' =>
      if not_ (poll p elapsed)
      then let '(calls, r) := wait_outcome p tries' (S elapsed) in
           (Poll (pid p) :: Sleep :: calls, r)
      else ([Poll (pid p)], Return tt)
  end.

(** [for p in ...: p.terminate(); ...], ended by the first exception. *)
Fixpoint terminate_each (procs : list Popen) : list event * result unit :=
  match procs with
  | [] => ([], Return tt)
  | p :: rest =>
      match wait_outcome p 10 0 with
      | (calls, Return _) =>
          let '(calls', r) := terminate_each rest in
          (Terminate (pid p) :: calls ++ calls', r)
      | (calls, Raise e) => (Terminate (pid p) :: calls, Raise e)
      end
  end.

(** [terminate(procs)] with the exception that may end it. *)
Definition terminate_outcome (procs : list Popen)
  : list event * result unit :=
  terminate_each (rev procs).

(** [setenv(configfile)]: what it leaves in [os.environ]. *)
Definition setenv `{Utils.ConfigSource} (configfile : str)
    (environ : gmap str str) : gmap str str :=
  <[$"BALAIO_SETTINGS_FILE" := Utils.abspath configfile]> environ.

End Balaio.

(** ** vpipes.py *)

Module Vpipes.
Import Models.

(** The data a stage receives: a bare attempt, or the tuple
    [(attempt, package analyzer, journal and issue data, session)]. *)
Inductive item (Pkg Data Sess : Type) : Type :=
| Bare (attempt : Attempt)
| Tuple4 (attempt : Attempt) (pkg : Pkg) (data : Data) (session : Sess).
Arguments Bare {Pkg Data Sess} attempt.
Arguments Tuple4 {Pkg Data Sess} attempt pkg data session.

(** What a concrete stage supplies: its label [_stage_], its [validate]
    method and the notifier it was built with, whose [tell] may raise. *)
Class ValidationPipe (Pkg Data Sess : Type) := {
  stage : str;
  validate : item Pkg Data Sess -> result (str * str);
  tell : Attempt -> Sess -> str -> str -> str -> result unit
}.

Inductive event (Pkg Data Sess : Type) : Type :=
| Validate (it : item Pkg Data Sess)
| Savepoint
| Tell (attempt : Attempt) (description status label : str)
| Rollback.
Arguments Validate {Pkg Data Sess} it.
Arguments Savepoint {Pkg Data Sess}.
Arguments Tell {Pkg Data Sess} attempt description status label.
Arguments Rollback {Pkg Data Sess}.

Section Pipe.
Context {Pkg Data Sess : Type} `{ValidationPipe Pkg Data Sess}.

(** [try: attempt, _, _, _ = data  except TypeError: attempt = data] *)
Definition attempt_of (data : item Pkg Data Sess) : Attempt :=
  match data with
  | Bare a => a
  | Tuple4 a _ _ _ => a
  end.

Definition attempt_is_valid (data : item Pkg Data Sess) : result unit :=
  let attempt := attempt_of data in
  if negb (bool_decide (is_valid attempt = Some true))
  then Raise UnmetPrecondition
  else Return tt.

(** The body of [ValidationPipe.transform], under the decorator. *)
Definition transform_body (it : item Pkg Data Sess)
  : list (event Pkg Data Sess) * result (item Pkg Data Sess) :=
  match it with
  | Bare _ => ([], Raise (TypeError $"object does not support indexing"))
  | Tuple4 attempt _ _ db_session =>
      match validate it with
      | Raise e => ([Validate it], Raise e)
      | Return (result_status, result_description) =>
          match tell attempt db_session result_description result_status stage with
          | Return _ =>
              ([Validate it; Savepoint;
                Tell attempt result_description result_status stage],
               Return it)
          | Raise e =>
              ([Validate it; Savepoint;
                Tell attempt result_description result_status stage;
                Rollback],
               Raise e)
          end
      end
  end.

(** plumber's [precondition] decorator (a library the repository
    imports): the decorated method runs [precond(data)] first, returns
    [data] itself when that raises [UnmetPrecondition], and calls the
    method otherwise. *)
Definition precondition
    (precond : item Pkg Data Sess -> result unit)
    (f : item Pkg Data Sess ->
         list (event Pkg Data Sess) * result (item Pkg Data Sess))
    (data : item Pkg Data Sess)
  : list (event Pkg Data Sess) * result (item Pkg Data Sess) :=
  match precond data with
  | Raise UnmetPrecondition => ([], Return data)
  | Raise e => ([], Raise e)
  | Return _ => f data
  end.

(** [@precondition(attempt_is_valid) def transform(self, item)] *)
Definition transform := precondition attempt_is_valid transform_body.

End Pipe.

End Vpipes.

(** ** checkout.py *)

Module Checkout.
Import Models.

Definition FILES_EXTENSION : list str := [$"xml"; $"pdf"].
Definition IMAGES_EXTENSION : list str := [$"tif"; $"eps"].
Definition NAME_ZIP_FILE : str := $"images.zip".
Definition STATIC_PATH : str := $"articles".

(** An entry of the package archive: [static_file.name] and what
    [static_file.read()] returns. *)
Record StaticFile : Type := {
  name : str;
  content : str
}.

(** The body of [client.articles.post(data)]. *)
Record Payload (Front : Type) : Type := {
  front : Front;
  xml_url : str;
  pdf_url : str;
  images_url : str
}.
Arguments front {Front} _.
Arguments xml_url {Front} _.
Arguments pdf_url {Front} _.
Arguments images_url {Front} _.

(** The calls that leave the process. *)
Inductive event (Front : Type) : Type :=
| Sent (body path : str)
| Posted (data : Payload Front)
| Slept (seconds : Z).
Arguments Sent {Front} body path.
Arguments Posted {Front} data.
Arguments Slept {Front} seconds.

(** The collaborators of the checkout runner that the sources do not
    hold: the package reader, two helpers of [utils], the static
    backend, the metadata extractor, the API client, the clock and the
    configured pause.  A reply may depend on every call made before. *)
Class Boundary (Front : Type) := {
  (** [PackageAnalyzer(filepath).get_fps(ext)] *)
  get_fps : str -> str -> list StaticFile;
  (** [PackageAnalyzer(filepath).xml] *)
  package_xml : str -> str;
  (** [utils.get_static_path(base, aid, filename)] *)
  get_static_path : str -> str -> str -> str;
  (** [utils.zip_files(dict)] *)
  zip_files : gmap str str -> str;
  (** [static.send(body, path)] *)
  send : list (event Front) -> str -> str -> result str;
  (** [next(meta_extractor.get_meta_ppl().run(xml, rewrap=True))] *)
  extract_front : str -> result Front;
  (** [client.articles.post(data)] *)
  post : list (event Front) -> Payload Front -> result unit;
  (** [datetime.now()] *)
  now : list (event Front) -> Z;
  (** [config.getint('checkout', 'time')] *)
  checkout_time : Z
}.

(** The datastore under the transaction manager, the objects of the
    session, and the calls made so far.  Attempts are named by their row
    number. *)
Record World (Front : Type) : Type := {
  committed : list Attempt;
  working : list Attempt;
  trace : list (event Front)
}.
Arguments committed {Front} _.
Arguments working {Front} _.
Arguments trace {Front} _.

(** Programs that change the world and may raise. *)
Definition prog (Front A : Type) : Type :=
  World Front -> World Front * result A.

#[global] Instance prog_ret {Front} : MRet (prog Front) :=
  fun A a w => (w, Return a).

#[global] Instance prog_bind {Front} : MBind (prog Front) :=
  fun A B k m w =>
    match m w with
    | (w', Return a) => k a w'
    | (w', Raise e) => (w', Raise e)
    end.

Definition raise {Front A} (e : exn) : prog Front A :=
  fun w => (w, Raise e).

(** [try: body  except: handler] *)
Definition try_except {Front A}
    (body : prog Front A) (handler : exn -> prog Front A) : prog Front A :=
  fun w =>
    match body w with
    | (w', Return a) => (w', Return a)
    | (w', Raise e) => handler e w'
    end.

(** What [CheckoutList.append] and [checkout_procedure] are handed: an
    attempt of the session, or the tuple [(attempt, client, conn)]. *)
Inductive item : Type :=
| AnAttempt (row : nat)
| Job (row : nat).

Section Runner.
Context {Front : Type} `{Boundary Front}.

Definition call {A} (ev : event Front)
    (reply : list (event Front) -> result A) : prog Front A :=
  fun w =>
    ({| committed := committed w; working := working w;
        trace := trace w ++ [ev] |},
     reply (trace w)).

(** A write to a field of the attempt object of row [row]. *)
Definition setattr (row : nat) (f : Attempt -> Attempt) : prog Front unit :=
  fun w =>
    ({| committed := committed w; working := alter f row (working w);
        trace := trace w |},
     Return tt).

(** Modelled from the spec: the transaction manager of the datastore, a
    unit of work with commit and abort over the mutations of a batch.
    [transaction.commit()] makes the session's objects the stored rows;
    [transaction.abort()] discards every change since the last commit. *)
Definition transaction_commit : prog Front unit :=
  fun w =>
    ({| committed := working w; working := working w; trace := trace w |},
     Return tt).

Definition transaction_abort : prog Front unit :=
  fun w =>
    ({| committed := committed w; working := committed w; trace := trace w |},
     Return tt).

(** [uri_dict[key]] *)
Definition getitem (uri_dict : gmap str str) (key : str) : prog Front str :=
  match uri_dict !! key with
  | Some uri => mret uri
  | None => raise (KeyError key)
  end.

Definition static_send (body path : str) : prog Front str :=
  call (Sent body path) (fun tr => send tr body path).

(** [for static_file in get_static(attempt, ext): ... uri_dict[ext] = uri] *)
Fixpoint upload_files (attempt : Attempt) (ext : str)
    (files : list StaticFile) (uri_dict : gmap str str)
  : prog Front (gmap str str) :=
  match files with
  | [] => mret uri_dict
  | static_file :: files' =>
      uri ← static_send (content static_file)
              (get_static_path STATIC_PATH (aid attempt) (name static_file));
      upload_files attempt ext files' (<[ext := uri]> uri_dict)
  end.

(** [for ext in FILES_EXTENSION: ...] *)
Fixpoint upload_kinds (attempt : Attempt) (exts : list str)
    (uri_dict : gmap str str) : prog Front (gmap str str) :=
  match exts with
  | [] => mret uri_dict
  | ext :: exts' =>
      uri_dict' ← upload_files attempt ext
                    (get_fps (filepath attempt) ext) uri_dict;
      upload_kinds attempt exts' uri_dict'
  end.

(** [for ext in IMAGES_EXTENSION: for static_file in ...:
       dict_img[static_file.name] = static_file.read()] *)
Definition collect_images (attempt : Attempt) (exts : list str)
  : gmap str str :=
  foldl (fun dict_img ext =>
           foldl (fun d static_file =>
                    <[name static_file := content static_file]> d)
                 dict_img (get_fps (filepath attempt) ext))
        ∅ exts.

Definition upload_static_files (attempt : Attempt)
  : prog Front (gmap str str) :=
  uri_dict ← upload_kinds attempt FILES_EXTENSION ∅;
  let dict_img := collect_images attempt IMAGES_EXTENSION in
  let comp_img := zip_files dict_img in
  uri ← static_send comp_img
          (get_static_path STATIC_PATH (aid attempt) NAME_ZIP_FILE);
  mret (<[$"img" := uri]> uri_dict).

Definition upload_meta_front (attempt : Attempt) (uri_dict : gmap str str)
  : prog Front unit :=
  let xml := package_xml (filepath attempt) in
  fr ← (fun w => (w, extract_front xml));
  xml_uri ← getitem uri_dict $"xml";
  pdf_uri ← getitem uri_dict $"pdf";
  img_uri ← getitem uri_dict $"img";
  let data := {| front := fr; xml_url := xml_uri; pdf_url := pdf_uri;
                 images_url := img_uri |} in
  call (Posted data) (fun tr => post tr data).

(** [CheckoutList.append]: only an attempt is flagged. *)
Definition CheckoutList_append (self : list item) (it : item)
  : prog Front (list item) :=
  match it with
  | AnAttempt row =>
      _ ← setattr row (set_queued_checkout true);
      mret (self ++ [it])
  | Job _ => mret (self ++ [it])
  end.

Definition checkout_procedure (it : item) : prog Front unit :=
  match it with
  | AnAttempt _ => raise (TypeError $"object is not iterable")
  | Job row =>
      fun w =>
        match working w !! row with
        | None => (w, Raise IndexError)
        | Some attempt =>
            (_ ← setattr row (set_checkout_started_at (now (trace w)));
             uri_dict ← upload_static_files attempt;
             _ ← upload_meta_front attempt uri_dict;
             setattr row (set_queued_checkout false)) w
        end
  end.

(** [session.query(models.Attempt).filter_by(proceed_to_checkout=True,
    pending_checkout=True).all()]: the rows that qualify, in row order. *)
Fixpoint eligible_from (row : nat) (attempts : list Attempt) : list nat :=
  match attempts with
  | [] => []
  | a :: attempts' =>
      if proceed_to_checkout a && pending_checkout a
      then row :: eligible_from (S row) attempts'
      else eligible_from (S row) attempts'
  end.

Definition query_checkout : prog Front (list nat) :=
  fun w => (w, Return (eligible_from 0 (working w))).

(** [for attempt in attempts_checkout:
       checkout_lst.append((attempt, client, conn))] *)
Fixpoint enqueue (attempts_checkout : list nat) (checkout_lst : list item)
  : prog Front (list item) :=
  match attempts_checkout with
  | [] => mret checkout_lst
  | row :: rows =>
      checkout_lst' ← CheckoutList_append checkout_lst (Job row);
      enqueue rows checkout_lst'
  end.

(** [pool.map(f, jobs)].  The worker threads take the jobs in an order
    the program does not choose: [order] lists positions of [jobs] in
    the order in which the jobs ran to their end.  The call raises what
    the first failing job raised; jobs after it in [order] had changed
    nothing yet when the exception reached the caller. *)
Fixpoint pool_map (f : item -> prog Front unit) (jobs : list item)
    (order : list nat) : prog Front unit :=
  match order with
  | [] => mret tt
  | k :: order' =>
      match jobs !! k with
      | Some job => _ ← f job; pool_map f jobs order'
      | None => pool_map f jobs order'
      end
  end.

Definition time_sleep (seconds : Z) : prog Front unit :=
  call (Slept seconds) (fun _ => Return tt).

(** The [try] block of the loop of [main]. *)
Definition process_batch (attempts_checkout : list nat) (order : list nat)
  : prog Front unit :=
  checkout_lst ← enqueue attempts_checkout [];
  _ ← pool_map checkout_procedure checkout_lst order;
  transaction_commit.

(** One turn of the [while True] loop of [main]. *)
Definition main_iteration (order : list nat) : prog Front unit :=
  attempts_checkout ← query_checkout;
  _ ← match attempts_checkout with
      | [] => mret tt
      | _ :: _ =>
          try_except (process_batch attempts_checkout order)
                     (fun e => _ ← transaction_abort; raise e)
      end;
  time_sleep (checkout_time * 60).

(** [fuel] turns of the loop; [orders n] is the pool's order in turn [n].
    [Return tt] means the loop is still running after [fuel] turns. *)
Fixpoint main_loop (fuel : nat) (turn : nat) (orders : nat -> list nat)
  : prog Front unit :=
  match fuel with
  | O => mret tt
  | S fuel' =>
      _ ← main_iteration (orders turn);
      main_loop fuel' (S turn) orders
  end.

End Runner.

End Checkout.

(** * What the specification says, in its own words *)

Module Spec.

(** The value of a decimal digit. *)
Definition digit_of (c : ascii) : option Z :=
  let n := nat_of_ascii c in
  if (48 <=? n)%nat && (n <=? 57)%nat then Some (Z.of_nat n - 48) else None.

Definition is_digit (c : ascii) : bool :=
  match digit_of c with Some _ => true | None => false end.

(** The digits of a text, or the conversion error of its first
    character that is no digit. *)
Fixpoint digits_of (vs : str) : result (list Z) :=
  match vs with
  | [] => Return []
  | v :: vs' =>
      match digit_of v with
      | Some d => ds ← digits_of vs'; Return (d :: ds)
      | None => Raise (Py.invalid_literal [v])
      end
  end.

(** Sum over [i] of [(8 - i) * digit_i]. *)
Definition weighted_sum (ds : list Z) : Z :=
  foldr Z.add 0 (imap (fun i d => (8 - Z.of_nat i) * d) ds).

(** 0 for remainder 0, else 11 minus the remainder, 10 written [X]. *)
Definition check_char (total : Z) : str :=
  let r := total mod 11 in
  if r =? 0 then $"0"
  else if 11 - r =? 10 then $"X"
  else [ascii_of_nat (48 + Z.to_nat (11 - r))].

(** Strict ISSN validation as four checks in order, each with its own
    error.  [summed] picks, from the text without its hyphens, the
    characters that enter the weighted sum. *)
Definition issn_rule (summed : str -> str) (issn : pyval) : result str :=
  match issn with
  | PyStr s =>
      if bool_decide (length s ≠ 9%nat) then Raise (ValueError $"Invalid length")
      else if bool_decide ("-"%char ∉ s) then Raise (ValueError $"Invalid format")
      else
        ds ← digits_of (summed (Py.remove_char "-" s));
        if bool_decide (Some <$> check_char (weighted_sum ds) = [last s])
        then Return s
        else Raise (ValueError $"Invaid ISSN")
  | _ => Raise (TypeError $"Invalid type")
  end.

(** The sum as the specification words it: over the first 7 characters
    left after the hyphens are removed. *)
Definition first_seven (s : str) : str := take 7 s.

(** The sum as [calc_check_digit_issn] takes it: over every character
    left but the last. *)
Definition all_but_last (s : str) : str := removelast s.

(** A trimmed text, absent when the trim is empty. *)
Definition trimmed_or_absent (s : str) : option str :=
  match Py.strip s with
  | [] => None
  | t => Some t
  end.

(** The text up to, and excluding, its first space. *)
Fixpoint before_space (s : str) : str :=
  match s with
  | [] => []
  | c :: r => if Ascii.eqb c " " then [] else c :: before_space r
  end.

(** Issue-designator parsing of a text.  The marker is the first place
    where the lower-cased text reads [sup]; [case] is the letter case in
    which the number is reported. *)
Definition issue_designator (case : str -> str) (text : str)
  : option str * option str * option str :=
  match Py.index_of $"sup" (Py.lower text) with
  | Some p =>
      let label := before_space (drop p text) in
      (trimmed_or_absent (case (take p text)),
       Some label,
       trimmed_or_absent (drop (length label) (drop p text)))
  | None => (Some text, None, None)
  end.

(** The number as the specification words it: the text before the
    marker, as it was given. *)
Definition as_given (s : str) : str := s.

(** A value that is there and is not the empty text. *)
Definition present (x : option str) : Prop :=
  exists s : str, x = Some s /\ s <> [].

(** Exactly one component of a pair is present. *)
Definition exactly_one {A} (p : option A * option A) : Prop :=
  match p with
  | (Some _, None) | (None, Some _) => True
  | _ => False
  end.

(** The outcome is the error of a failed digit conversion. *)
Definition conversion_error {A} (r : result A) : Prop :=
  exists c : ascii, r = Raise (Py.invalid_literal [c]).

(** The four errors strict ISSN validation names. *)
Definition named_errors : list exn :=
  [TypeError $"Invalid type"; ValueError $"Invalid length";
   ValueError $"Invalid format"; ValueError $"Invaid ISSN"].

(** The calls [terminate] makes on a child that looks alive at each of
    [tries] polls: a poll and a half-second sleep, [tries] times. *)
Fixpoint polls (pid : nat) (tries : nat) : list Balaio.event :=
  match tries with
  | O => []
  | S n => Balaio.Poll pid :: Balaio.Sleep :: polls pid n
  end.

(** The children asked to terminate, in the order of the requests. *)
Definition terminate_requests (calls : list Balaio.event) : list nat :=
  omap (fun e => match e with Balaio.Terminate n => Some n | _ => None end)
       calls.

(** A program that only talks to the outside: it leaves the stored rows
    and the objects of the session as they were. *)
Definition io_only {Front A} (m : Checkout.prog Front A) : Prop :=
  forall w, Checkout.committed (m w).1 = Checkout.committed w
            /\ Checkout.working (m w).1 = Checkout.working w.

(** A program that does not touch the stored rows. *)
Definition keeps_committed {Front A} (m : Checkout.prog Front A) : Prop :=
  forall w, Checkout.committed (m w).1 = Checkout.committed w.

(** The attempt of row [row] has its [queued_checkout] flag cleared. *)
Definition cleared (rows : list Models.Attempt) (row : nat) : Prop :=
  exists a, rows !! row = Some a /\ Models.queued_checkout a = false.

(** The world after more calls were made. *)
Definition with_trace {Front} (w : Checkout.World Front)
    (tr : list (Checkout.event Front)) : Checkout.World Front :=
  {| Checkout.committed := Checkout.committed w;
     Checkout.working := Checkout.working w;
     Checkout.trace := tr |}.

(** Where an entry of the archive of [attempt] is uploaded. *)
Definition static_path `{Checkout.Boundary Front}
    (attempt : Models.Attempt) (filename : str) : str :=
  Checkout.get_static_path Checkout.STATIC_PATH (Models.aid attempt) filename.

(** The upload of one entry of the archive. *)
Definition sent_for `{Checkout.Boundary Front}
    (attempt : Models.Attempt) (f : Checkout.StaticFile)
  : Checkout.event Front :=
  Checkout.Sent (Checkout.content f) (static_path attempt (Checkout.name f)).

(** The bytes of the last entry of a given name. *)
Definition last_named (files : list Checkout.StaticFile) (n : str)
  : option str :=
  Checkout.content <$> last (filter (fun f => Checkout.name f = n) files).

(** The static backend takes every upload. *)
Definition backend_answers `{Checkout.Boundary Front} : Prop :=
  forall tr body path, exists uri, Checkout.send tr body path = Return uri.

(** The URI the backend returns for [body] at [path] after the calls
    [tr]. *)
Definition uri_of `{Checkout.Boundary Front}
    (tr : list (Checkout.event Front)) (body path : str) (uri : str) : Prop :=
  Checkout.send tr body path = Return uri.

(** The value [v] under a kind's key after the entries [files] of that
    kind were uploaded, the calls [tr] made before: nothing when there
    is no entry, else the URI returned for the last entry. *)
Definition last_upload `{Checkout.Boundary Front}
    (tr : list (Checkout.event Front)) (attempt : Models.Attempt)
    (files : list Checkout.StaticFile) (v : option str) : Prop :=
  match last files with
  | None => v = None
  | Some f =>
      exists uri,
        uri_of (tr ++ (sent_for attempt <$> removelast files))
               (Checkout.content f) (static_path attempt (Checkout.name f)) uri
        /\ v = Some uri
  end.

(** A word of a text: not empty and free of whitespace. *)
Definition is_word (w : str) : Prop :=
  w <> [] /\ forallb (fun c => negb (Py.is_space c)) w = true.

(** [b] is [a] after assignments to [checkout_started_at] and to
    [queued_checkout], and to no other attribute. *)
Inductive checkout_assignments (a : Models.Attempt)
  : Models.Attempt -> Prop :=
| no_assignment : checkout_assignments a a
| assign_checkout_started_at (t : Z) (b : Models.Attempt) :
    checkout_assignments a b ->
    checkout_assignments a (Models.set_checkout_started_at t b)
| assign_queued_checkout (q : bool) (b : Models.Attempt) :
    checkout_assignments a b ->
    checkout_assignments a (Models.set_queued_checkout q b).

(** A child that exits with status 0 does so only after the ten polls. *)
Definition no_clean_exit_in_window (p : Balaio.Popen) : Prop :=
  forall k, Balaio.exits p = Some (k, 0) -> (10 <= k)%nat.

(** A digest that can stand in a header line: it holds no space and no
    line feed, as a hexadecimal digest does. *)
Definition header_safe (d : str) : bool :=
  forallb (fun c => negb (Ascii.eqb c " ") && negb (Ascii.eqb c "010")) d.

(** A message put in front of what a receiver yields. *)
Definition yield_first {Msg} (m : Msg) (r : list Msg * Utils.recv_end)
  : list Msg * Utils.recv_end :=
  (m :: r.1, r.2).

End Spec.

(** * Concrete collaborators, for the worked instances *)

Module Samples.

(** A serializer of byte strings: a tag byte, then the text. *)
#[global] Instance tagged_pickle : Utils.Pickle str := {|
  Utils.dumps m := "S"%char :: m;
  Utils.loads b :=
    match b with
    | "S"%char :: m => Return m
    | _ => Raise (ValueError $"bad pickle")
    end
|}.

(** A checksum written in decimal, standing for the keyed digest. *)
Definition checksum (s : str) : str :=
  Py.str_of_N
    (foldr (fun c acc => (N.of_nat (nat_of_ascii c) + 31 * acc) mod 65521)%N
           7%N s).

(** A stage that accepts everything and whose notifier never fails. *)
#[global] Instance accepting_stage : Vpipes.ValidationPipe unit unit unit := {|
  Vpipes.stage := $"sample";
  Vpipes.validate _ := Return ($"ok", $"nothing to report");
  Vpipes.tell _ _ _ _ _ := Return tt
|}.

(** An attempt with the given validity flag. *)
Definition attempt_with (valid : option bool) : Models.Attempt :=
  {| Models.filepath := $"/in/pkg.zip"; Models.aid := $"a1";
     Models.is_valid := valid;
     Models.proceed_to_checkout := true; Models.pending_checkout := true;
     Models.queued_checkout := false; Models.checkout_started_at := None |}.

(** A child that handles the terminate request and exits at once with
    status 0. *)
Definition clean_child : Balaio.Popen :=
  {| Balaio.pid := 7; Balaio.exits := Some (0%nat, 0) |}.

(** A package reader, static backend and API that always answer.  The
    package at [/in/nopdf.zip] holds no PDF; every other package holds one
    XML file, one PDF and two images. *)
#[global] Instance answering : Checkout.Boundary unit := {|
  Checkout.get_fps fp ext :=
    if bool_decide (ext = $"pdf" /\ fp = $"/in/nopdf.zip") then []
    else if bool_decide (ext = $"tif") then
      [ {| Checkout.name := $"f1.tif"; Checkout.content := $"II*" |};
        {| Checkout.name := $"f2.tif"; Checkout.content := $"MM*" |} ]
    else if bool_decide (ext = $"eps") then []
    else [ {| Checkout.name := $"article." ++ ext;
              Checkout.content := $"<" ++ ext ++ $">" |} ];
  Checkout.package_xml fp := $"<article/>";
  Checkout.get_static_path base aid filename :=
    base ++ $"/" ++ aid ++ $"/" ++ filename;
  Checkout.zip_files d := $"PK" ++ Py.str_of_N (N.of_nat (size d));
  Checkout.send tr body path := Return ($"http://static/" ++ path);
  Checkout.extract_front xml := Return tt;
  Checkout.post tr data := Return tt;
  Checkout.now tr := Z.of_nat (length tr);
  Checkout.checkout_time := 5
|}.

(** A package reader that finds no entry of any kind. *)
Definition empty_packages : Checkout.Boundary unit := {|
  Checkout.get_fps fp ext := [];
  Checkout.package_xml fp := $"<article/>";
  Checkout.get_static_path base aid filename :=
    base ++ $"/" ++ aid ++ $"/" ++ filename;
  Checkout.zip_files d := $"PK" ++ Py.str_of_N (N.of_nat (size d));
  Checkout.send tr body path := Return ($"http://static/" ++ path);
  Checkout.extract_front xml := Return tt;
  Checkout.post tr data := Return tt;
  Checkout.now tr := Z.of_nat (length tr);
  Checkout.checkout_time := 5
|}.

(** An attempt ready for checkout, with the given package. *)
Definition ready (fp : str) : Models.Attempt :=
  {| Models.filepath := fp; Models.aid := $"a1";
     Models.is_valid := Some true;
     Models.proceed_to_checkout := true; Models.pending_checkout := true;
     Models.queued_checkout := true; Models.checkout_started_at := None |}.

(** Three attempts ready for checkout, stored as they are in the
    session; the second package lacks its PDF. *)
Definition three_ready : Checkout.World unit :=
  let rows := [ready $"/in/a.zip"; ready $"/in/nopdf.zip"; ready $"/in/c.zip"] in
  {| Checkout.committed := rows; Checkout.working := rows;
     Checkout.trace := [] |}.

(** A hash that keeps what it was fed and prints its checksum. *)
#[global] Instance keeping_hmac : Utils.Hmac := {|
  Utils.hmac_state := str;
  Utils.hmac_new secret := secret;
  Utils.hmac_update h chunk := h ++ chunk;
  Utils.hmac_hexdigest h := checksum h;
  Utils.hmac_update_nil h := app_nil_r h;
  Utils.hmac_update_app h a b := eq_sym (app_assoc h a b)
|}.

(** Two attempts ready for checkout, with complete packages. *)
Definition two_ready : Checkout.World unit :=
  let rows := [ready $"/in/a.zip"; ready $"/in/c.zip"] in
  {| Checkout.committed := rows; Checkout.working := rows;
     Checkout.trace := [] |}.

(** A session whose only attempt is not pending. *)
Definition none_ready : Checkout.World unit :=
  let rows :=
    [ {| Models.filepath := $"/in/a.zip"; Models.aid := $"a1";
         Models.is_valid := Some true;
         Models.proceed_to_checkout := true;
         Models.pending_checkout := false;
         Models.queued_checkout := false;
         Models.checkout_started_at := None |} ] in
  {| Checkout.committed := rows; Checkout.working := rows;
     Checkout.trace := [] |}.

(** The frame of the message [hello], reaching the reader in two
    pieces: the header with the first four bytes of the body, then the
    last two bytes. *)
Definition split_delivery : list str :=
  [ Utils.make_header (checksum $"Shello") 6 ++ $"Shel"; $"lo" ].

End Samples.

(** * Facts about the Python primitives *)

Module PyFacts.

Lemma int_char (c : ascii) :
  Py.int [c] = match Spec.digit_of c with
               | Some d => Return d
               | None => Raise (Py.invalid_literal [c])
               end.
Proof. by destruct c as [[] [] [] [] [] [] [] []]. Qed.

Lemma index_of_elem (c : ascii) (s : str) :
  Py.contains [c] s = bool_decide (c ∈ s).
Proof.
  unfold Py.contains. induction s as [|a s IH]; simpl; first done.
  destruct (Ascii.eqb_spec c a) as [->|Hne].
  - simpl. rewrite bool_decide_eq_true_2; [done | left].
  - destruct (Py.index_of [c] s) eqn:E; simpl.
    + symmetry in IH. apply bool_decide_eq_true in IH.
      rewrite bool_decide_eq_true_2; [done | by right].
    + symmetry in IH. apply bool_decide_eq_false in IH.
      rewrite bool_decide_eq_false_2; [done |].
      intros Hin. apply elem_of_cons in Hin as [?|?]; done.
Qed.

Lemma getitem_last (s : str) (c : ascii) :
  last s = Some c -> Py.getitem s (-1) = Return [c].
Proof.
  intros Hl. unfold Py.getitem. simpl.
  assert (Hn : (0 < length s)%nat) by (destruct s; [done | simpl; lia]).
  rewrite last_lookup in Hl.
  replace (Z.to_nat (Z.of_nat (length s) + -1)) with (Nat.pred (length s)) by lia.
  rewrite Hl.
  destruct (0 <=? _) eqn:E1; [|lia].
  destruct (_ <? _) eqn:E2; [done | lia].
Qed.

Lemma startswith_prefix (sub s : str) :
  Py.startswith sub s = true <-> sub `prefix_of` s.
Proof.
  revert s. induction sub as [|a sub IH]; intros s; simpl.
  - split; [intros _; apply prefix_nil | done].
  - destruct s as [|b s].
    + split; [done | intros Hp; by apply prefix_nil_not in Hp].
    + destruct (Ascii.eqb_spec a b) as [->|Hne].
      * rewrite IH. split; [apply prefix_cons | apply prefix_cons_inv_2].
      * split; [done | intros Hp; by apply prefix_cons_inv_1 in Hp].
Qed.

Lemma index_of_Some (sub s : str) (p : nat) :
  Py.index_of sub s = Some p <->
  (p <= length s)%nat /\ sub `prefix_of` drop p s /\
  forall r, (r < p)%nat -> ~ sub `prefix_of` drop r s.
Proof.
  revert p. induction s as [|c s IH]; intros p.
  - simpl. destruct (Py.startswith sub []) eqn:E.
    + apply startswith_prefix in E. split.
      * intros [= <-]. split; [done|]. split; [done | intros; lia].
      * intros (Hp & _ & _). simpl in Hp. f_equal. lia.
    + split; [done|]. intros (Hp & Hpre & _). destruct p; simpl in *; [|lia].
      apply startswith_prefix in Hpre. congruence.
  - cbn [Py.index_of]. destruct (Py.startswith sub (c :: s)) eqn:E.
    + apply startswith_prefix in E. split.
      * intros [= <-]. split; [simpl; lia|]. split; [done | intros; lia].
      * intros (_ & _ & Hmin). destruct p; [done|].
        exfalso. apply (Hmin 0%nat); [lia | done].
    + assert (Hn : ~ sub `prefix_of` c :: s).
      { intros Hp. apply startswith_prefix in Hp. congruence. }
      destruct (Py.index_of sub s) as [q|] eqn:Eq; simpl.
      * specialize (IH q). destruct IH as [IH _]. specialize (IH eq_refl).
        destruct IH as (Hq & Hpre & Hmin). split.
        -- intros [= <-]. split; [simpl; lia|]. split; [done|].
           intros [|r] Hr; [done|]. simpl. apply Hmin. lia.
        -- intros (Hp & Hpre' & Hmin'). destruct p as [|p]; [done|].
           f_equal. f_equal. simpl in *.
           destruct (Nat.lt_trichotomy p q) as [Hlt|[->|Hgt]]; [|done|].
           ++ exfalso. by apply (Hmin p).
           ++ exfalso. apply (Hmin' (S q)); [lia | done].
      * split; [done|]. intros (Hp & Hpre & Hmin). destruct p as [|p]; [done|].
        specialize (IH p). destruct IH as [_ IH]. simpl in *.
        assert (None = Some p) as Habs; [|done].
        apply IH. split; [lia|]. split; [done|].
        intros r Hr. apply (Hmin (S r)). lia.
Qed.

Lemma clamp_nat (s : str) (p : nat) :
  (p <= length s)%nat -> Py.clamp s (Z.of_nat p) = p.
Proof.
  intros Hp. unfold Py.clamp.
  destruct (Z.of_nat p <? 0) eqn:E; lia.
Qed.

Lemma slice_from_nat (s : str) (p : nat) :
  (p <= length s)%nat -> Py.slice_from s (Z.of_nat p) = drop p s.
Proof. intros Hp. unfold Py.slice_from. by rewrite clamp_nat. Qed.

Lemma slice_0_nat (s : str) (p : nat) :
  (p <= length s)%nat -> Py.slice s 0 (Z.of_nat p) = take p s.
Proof.
  intros Hp. unfold Py.slice. rewrite (clamp_nat s p Hp).
  replace (Py.clamp s 0) with 0%nat; [done|].
  unfold Py.clamp. simpl. lia.
Qed.

Lemma find_Some (sub s : str) (p : nat) :
  Py.index_of sub s = Some p -> Py.find sub s = Z.of_nat p.
Proof. unfold Py.find. by intros ->. Qed.

Lemma contains_Some (sub s : str) (p : nat) :
  Py.index_of sub s = Some p -> Py.contains sub s = true.
Proof. unfold Py.contains. by intros ->. Qed.

Lemma contains_None (sub s : str) :
  Py.index_of sub s = None -> Py.contains sub s = false.
Proof. unfold Py.contains. by intros ->. Qed.

Lemma string_of_uint_digits (d : Decimal.uint) :
  forallb Spec.is_digit (list_ascii_of_string (NilEmpty.string_of_uint d)) = true.
Proof. induction d; simpl; auto. Qed.

Lemma str_of_N_digits (n : N) : forallb Spec.is_digit (Py.str_of_N n) = true.
Proof. apply string_of_uint_digits. Qed.

Lemma str_of_N_nonempty (n : N) : Py.str_of_N n <> [].
Proof.
  unfold Py.str_of_N. destruct n as [|p]; [done|]. simpl.
  pose proof (DecimalPos.Unsigned.to_uint_nonnil p) as Hp.
  destruct (Pos.to_uint p); done.
Qed.

Lemma digit_not_space (c : ascii) : Spec.is_digit c = true -> Py.is_space c = false.
Proof. by destruct c as [[] [] [] [] [] [] [] []]. Qed.

Lemma digit_not_sign (c : ascii) :
  Spec.is_digit c = true -> c <> "-"%char /\ c <> "+"%char.
Proof. by destruct c as [[] [] [] [] [] [] [] []]. Qed.

Lemma lstrip_digit (c : ascii) (s : str) :
  Spec.is_digit c = true -> Py.lstrip (c :: s) = c :: s.
Proof. intros Hc. simpl. by rewrite (digit_not_space _ Hc). Qed.

Lemma lstrip_space (c : ascii) (s : str) :
  Py.is_space c = true -> Py.lstrip (c :: s) = Py.lstrip s.
Proof. intros Hc. simpl. by rewrite Hc. Qed.

Lemma lstrip_digits (s : str) :
  forallb Spec.is_digit s = true -> Py.lstrip s = s.
Proof.
  destruct s as [|c s]; [done|]. intros Hd.
  apply andb_prop in Hd as [Hc _]. by apply lstrip_digit.
Qed.

Lemma strip_digits_newline (ds : str) :
  forallb Spec.is_digit ds = true -> ds <> [] ->
  Py.strip (ds ++ ["010"%char]) = ds.
Proof.
  intros Hd Hne. unfold Py.strip, Py.rstrip.
  destruct ds as [|c s]; [done|].
  pose proof Hd as Hd'. apply andb_prop in Hd' as [Hc _].
  change ((c :: s) ++ ["010"%char]) with (c :: (s ++ ["010"%char])).
  rewrite (lstrip_digit _ _ Hc).
  change (c :: (s ++ ["010"%char])) with ((c :: s) ++ ["010"%char]).
  rewrite rev_app_distr.
  change (rev ["010"%char] ++ rev (c :: s)) with ("010"%char :: rev (c :: s)).
  rewrite lstrip_space by done.
  rewrite lstrip_digits; [apply rev_involutive|].
  rewrite forallb_forall in *. intros x Hx. apply Hd. by apply in_rev.
Qed.

(** [int] reads back what [str] wrote, the line feed of the header
    included. *)
Lemma int_str_of_N (n : N) :
  Py.int (Py.str_of_N n ++ ["010"%char]) = Return (Z.of_N n).
Proof.
  pose proof (str_of_N_digits n) as Hd.
  pose proof (str_of_N_nonempty n) as Hne.
  unfold Py.int. rewrite strip_digits_newline by done.
  assert (Hparse : NilEmpty.uint_of_string (string_of_list_ascii (Py.str_of_N n))
                   = Some (N.to_uint n)).
  { unfold Py.str_of_N.
    rewrite string_of_list_ascii_of_string. apply NilEmpty.usu. }
  destruct (Py.str_of_N n) as [|c s] eqn:E; [done|].
  apply andb_prop in Hd as [Hc _]. apply digit_not_sign in Hc as [Hm Hp].
  destruct c as [[] [] [] [] [] [] [] []]; try done;
    rewrite Hparse, DecimalN.Unsigned.of_to; done.
Qed.

End PyFacts.

(** * utils.py against the specification *)

Module UtilsFacts.
Import Utils PyFacts.

Lemma weighted_total_digits (vs : str) (i total : Z) :
  weighted_total i vs total =
  ds ← Spec.digits_of vs;
  Return (total + foldr Z.add 0 (imap (fun j d => (8 - (i + Z.of_nat j)) * d) ds)).
Proof.
  revert i total. induction vs as [|v vs IH]; intros i total; simpl.
  - f_equal. lia.
  - rewrite int_char. destruct (Spec.digit_of v) as [d|]; simpl; [|done].
    rewrite IH. destruct (Spec.digits_of vs) as [ds|e]; simpl; [|done].
    f_equal. rewrite Z.add_0_r, <- Z.add_assoc. do 3 f_equal.
    apply imap_ext. intros j x _. simpl. lia.
Qed.

Lemma check_digit_char (total : Z) :
  (let remainder := total mod 11 in
   let check_digit := if remainder =? 0 then 0 else 11 - remainder in
   if check_digit =? 10 then $"X" else Py.str_of_Z check_digit)
  = Spec.check_char total.
Proof.
  unfold Spec.check_char. simpl.
  pose proof (Z.mod_pos_bound total 11 eq_refl) as Hr.
  set (r := total mod 11) in *.
  assert (Hc : r = 0 \/ r = 1 \/ r = 2 \/ r = 3 \/ r = 4 \/ r = 5 \/ r = 6
               \/ r = 7 \/ r = 8 \/ r = 9 \/ r = 10) by lia.
  clearbody r. destruct Hc as [->|[->|[->|[->|[->|[->|[->|[->|[->|[->| ->]]]]]]]]]];
    reflexivity.
Qed.

Lemma calc_check_digit_issn_rule (issn : str) :
  calc_check_digit_issn issn =
  ds ← Spec.digits_of (Spec.all_but_last (Py.remove_char "-" issn));
  Return (Spec.check_char (Spec.weighted_sum ds)).
Proof.
  unfold calc_check_digit_issn, Spec.all_but_last.
  rewrite weighted_total_digits.
  destruct (Spec.digits_of _) as [ds|e]; simpl; [|done].
  f_equal. rewrite <- check_digit_char. unfold Spec.weighted_sum. simpl.
  done.
Qed.

Lemma validate_issn_rule (issn : pyval) :
  validate_issn issn = Spec.issn_rule Spec.all_but_last issn.
Proof.
  destruct issn as [| b | z | s]; try reflexivity.
  unfold validate_issn, Spec.issn_rule.
  destruct (Nat.eqb_spec (length s) 9) as [Hlen|Hlen]; simpl.
  2: { by rewrite bool_decide_eq_true_2. }
  rewrite bool_decide_eq_false_2 by (intros ?; done).
  rewrite index_of_elem.
  destruct (decide ("-"%char ∈ s)) as [Hin|Hin].
  2: { rewrite (bool_decide_eq_false_2 _ Hin). simpl.
       by rewrite bool_decide_eq_true_2. }
  rewrite (bool_decide_eq_true_2 _ Hin). simpl.
  rewrite (bool_decide_eq_false_2 ("-"%char ∉ s)) by (intros ?; done).
  rewrite calc_check_digit_issn_rule.
  destruct (Spec.digits_of _) as [ds|e]; simpl; [|done].
  destruct (last s) as [c|] eqn:Hl.
  2: { apply last_None in Hl. subst s. done. }
  rewrite (getitem_last _ _ Hl). simpl.
  destruct (decide (Spec.check_char (Spec.weighted_sum ds) = [c])) as [Heq|Hne].
  - rewrite (bool_decide_eq_true_2 _ Heq). simpl. rewrite Heq. simpl.
    by rewrite bool_decide_eq_true_2.
  - rewrite (bool_decide_eq_false_2 _ Hne). simpl.
    rewrite bool_decide_eq_false_2; [done|].
    intros Heq. apply Hne.
    destruct (Spec.check_char _) as [|x [|y l]]; simpl in Heq; try done.
    by injection Heq as ->.
Qed.

Lemma none_if_empty_strip (s : str) :
  none_if_empty (Py.strip s) = Spec.trimmed_or_absent s.
Proof. unfold Spec.trimmed_or_absent. by destruct (Py.strip s). Qed.

Lemma index_of_char_cons (a c : ascii) (s : str) :
  Py.index_of [a] (c :: s) =
  if Ascii.eqb a c then Some 0%nat else S <$> Py.index_of [a] s.
Proof. cbn [Py.index_of Py.startswith]. by destruct (Ascii.eqb a c). Qed.

(** The label the code cuts, by [in] and [find] of a space. *)
Lemma label_before_space (tail : str) :
  (if Py.contains $" " tail
   then Py.slice tail 0 (Py.find $" " tail) else tail)
  = Spec.before_space tail.
Proof.
  destruct (Py.index_of $" " tail) as [q|] eqn:E.
  - rewrite (contains_Some _ _ _ E), (find_Some _ _ _ E).
    apply index_of_Some in E as (Hq & Hpre & Hmin).
    rewrite slice_0_nat by done.
    revert q Hq Hpre Hmin. induction tail as [|c tail IH]; intros q Hq Hpre Hmin.
    + by rewrite take_nil.
    + simpl. destruct (Ascii.eqb_spec c " ") as [->|Hne].
      * destruct q as [|q]; [done|]. exfalso. apply (Hmin 0%nat); [lia|].
        by exists tail.
      * destruct q as [|q].
        -- simpl in Hpre. apply prefix_cons_inv_1 in Hpre. congruence.
        -- simpl. f_equal. apply IH; [simpl in Hq; lia | done |].
           intros r Hr. apply (Hmin (S r)). lia.
  - rewrite (contains_None _ _ E).
    change ($" ") with [" "%char] in E.
    induction tail as [|c tail IH]; [done|].
    rewrite index_of_char_cons in E. cbn [Spec.before_space].
    rewrite Ascii.eqb_sym in E.
    destruct (Ascii.eqb c " "); [done|].
    f_equal. apply IH. by destruct (Py.index_of _ tail).
Qed.

Lemma before_space_prefix (s : str) : Spec.before_space s `prefix_of` s.
Proof.
  induction s as [|c s IH]; simpl; [done|].
  destruct (Ascii.eqb c " "); [apply prefix_nil | by apply prefix_cons].
Qed.

Lemma lower_drop (n : nat) (s : str) : Py.lower (drop n s) = drop n (Py.lower s).
Proof. unfold Py.lower. by rewrite fmap_drop. Qed.

Lemma lower_take (n : nat) (s : str) : Py.lower (take n s) = take n (Py.lower s).
Proof. unfold Py.lower. by rewrite fmap_take. Qed.

Lemma lower_not_space (c x : ascii) :
  Py.lower_ascii c = x -> x <> " "%char -> Ascii.eqb c " " = false.
Proof.
  intros <- Hx. destruct (Ascii.eqb_spec c " ") as [->|]; [|done].
  by exfalso.
Qed.

(** Where the lower-cased text reads [sup], the label starts with those
    three characters of the text. *)
Lemma marker_in_label (tail rest : str) :
  Py.lower tail = $"sup" ++ rest ->
  exists a b c l,
    Py.lower [a; b; c] = $"sup" /\ Spec.before_space tail = a :: b :: c :: l.
Proof.
  destruct tail as [|a [|b [|c tail]]]; try done.
  intros [= Ha Hb Hc _]. exists a, b, c, (Spec.before_space tail).
  split; [simpl; by rewrite Ha, Hb, Hc|].
  simpl.
  rewrite (lower_not_space _ _ Ha), (lower_not_space _ _ Hb),
    (lower_not_space _ _ Hc); done.
Qed.

Lemma find_label (content : str) (p : nat) :
  Py.index_of $"sup" (Py.lower content) = Some p ->
  Py.index_of (Spec.before_space (drop p content)) content = Some p.
Proof.
  intros E. apply index_of_Some in E as (Hp & [rest Hpre] & Hmin).
  unfold Py.lower in Hp. rewrite length_fmap in Hp.
  apply index_of_Some. split; [done|]. split; [apply before_space_prefix|].
  intros r Hr [k Hk].
  rewrite <- lower_drop in Hpre.
  destruct (marker_in_label _ _ Hpre) as (a & b & c & l & Habc & Hl).
  apply (Hmin r Hr). rewrite <- lower_drop, Hk, Hl.
  change (a :: b :: c :: l) with ([a; b; c] ++ l).
  unfold Py.lower in *. rewrite <- app_assoc, fmap_app, Habc.
  by eexists.
Qed.

Lemma parse_issue_tag_designator (c : ascii) (text : str) :
  parse_issue_tag (Some (c :: text)) =
  Spec.issue_designator Py.lower (c :: text).
Proof.
  set (content := c :: text).
  unfold parse_issue_tag, Spec.issue_designator. fold content.
  destruct (Py.index_of $"sup" (Py.lower content)) as [p|] eqn:E.
  2: { by rewrite (contains_None _ _ E). }
  rewrite (contains_Some _ _ _ E), (find_Some _ _ _ E).
  pose proof (find_label _ _ E) as Hfind.
  pose proof E as E'.
  apply index_of_Some in E' as (Hp & _ & _).
  rewrite slice_0_nat by done. unfold Py.lower in Hp. rewrite length_fmap in Hp.
  rewrite slice_from_nat by done.
  rewrite label_before_space.
  rewrite (find_Some _ _ _ Hfind).
  set (label := Spec.before_space (drop p content)).
  assert (Hlen : (p + length label <= length content)%nat).
  { pose proof (before_space_prefix (drop p content)) as Hpre.
    apply prefix_length in Hpre. rewrite length_drop in Hpre.
    fold label in Hpre. lia. }
  rewrite <- Nat2Z.inj_add, slice_from_nat by done.
  rewrite !none_if_empty_strip, lower_take, drop_drop.
  done.
Qed.

Lemma readline_line (line rest : str) :
  forallb (fun c => negb (Ascii.eqb c "010")) line = true ->
  readline (line ++ "010"%char :: rest) = (line ++ ["010"%char], rest).
Proof.
  induction line as [|c line IH]; intros Hl; [done|].
  apply andb_prop in Hl as [Hc Hl]. cbn [readline app].
  apply negb_true_iff in Hc. rewrite Hc, (IH Hl). done.
Qed.

Lemma split_none (sep : ascii) (s : str) :
  forallb (fun c => negb (Ascii.eqb c sep)) s = true -> Py.split sep s = [s].
Proof.
  induction s as [|c s IH]; intros Hs; [done|].
  apply andb_prop in Hs as [Hc Hs]. cbn [Py.split].
  apply negb_true_iff in Hc. by rewrite Hc, (IH Hs).
Qed.

Lemma split_first (sep : ascii) (a b : str) :
  forallb (fun c => negb (Ascii.eqb c sep)) a = true ->
  Py.split sep (a ++ sep :: b) = a :: Py.split sep b.
Proof.
  induction a as [|c a IH]; intros Ha.
  - cbn [app Py.split]. by rewrite Ascii.eqb_refl.
  - apply andb_prop in Ha as [Hc Ha]. cbn [Py.split app].
    apply negb_true_iff in Hc. by rewrite Hc, (IH Ha).
Qed.

Lemma digits_no (sep : ascii) (ds : str) :
  Spec.is_digit sep = false ->
  forallb Spec.is_digit ds = true ->
  forallb (fun c => negb (Ascii.eqb c sep)) ds = true.
Proof.
  intros Hsep Hd. rewrite forallb_forall in *. intros x Hx.
  apply negb_true_iff. destruct (Ascii.eqb_spec x sep) as [->|]; [|done].
  apply Hd in Hx. congruence.
Qed.

Lemma header_safe_split (d : str) :
  Spec.header_safe d = true ->
  forallb (fun c => negb (Ascii.eqb c " ")) d = true /\
  forallb (fun c => negb (Ascii.eqb c "010")) d = true.
Proof.
  unfold Spec.header_safe. rewrite !forallb_forall. intros Hd.
  split; intros x Hx; apply Hd in Hx; by apply andb_prop in Hx as [? ?].
Qed.

Lemma str_of_Z_len (body : str) :
  Py.str_of_Z (len body) = Py.str_of_N (N.of_nat (length body)).
Proof.
  unfold Py.str_of_Z, len. destruct (Z.ltb_spec (Z.of_nat (length body)) 0) as [E|E]; [lia|].
  f_equal. by rewrite <- nat_N_Z, N2Z.id.
Qed.

Section Frames.
Context {Msg : Type} `{Pickle Msg} (digest : str -> str).

(** A well-formed frame at the head of the stream is read whole; it is
    yielded when the digest of its body is the one its header names, and
    dropped otherwise. *)
Lemma recv_frame_framed (d body rest : str) :
  Spec.header_safe d = true ->
  recv_frame (make_header d (len body) ++ body ++ rest) digest =
  if bool_decide (d = digest body)
  then m ← loads body; Return (Some m, rest)
  else Return (None, rest).
Proof.
  intros Hsafe. apply header_safe_split in Hsafe as [Hsp Hnl].
  unfold recv_frame, make_header. rewrite str_of_Z_len.
  set (ds := Py.str_of_N (N.of_nat (length body))).
  assert (Hds : forallb Spec.is_digit ds = true) by apply str_of_N_digits.
  replace ((d ++ $" " ++ ds ++ ["010"%char]) ++ body ++ rest)
    with ((d ++ $" " ++ ds) ++ "010"%char :: body ++ rest).
  2: { rewrite <- !app_assoc. done. }
  rewrite readline_line.
  2: { rewrite !forallb_app, Hnl. simpl. by rewrite digits_no. }
  destruct ((d ++ $" " ++ ds) ++ ["010"%char]) as [|h0 hs] eqn:Eh.
  { destruct d; done. }
  rewrite <- Eh. clear Eh h0 hs.
  unfold unpack_header.
  replace ((d ++ $" " ++ ds) ++ ["010"%char])
    with (d ++ " "%char :: (ds ++ ["010"%char])).
  2: { rewrite <- !app_assoc. done. }
  rewrite split_first by done.
  rewrite split_none.
  2: { rewrite forallb_app. simpl. by rewrite digits_no. }
  cbn [mbind result_bind].
  unfold ds. rewrite int_str_of_N. cbn [mbind result_bind].
  unfold read. destruct (Z.ltb_spec (Z.of_N (N.of_nat (length body))) 0) as [E|E]; [lia|].
  replace (Z.to_nat (Z.of_N (N.of_nat (length body)))) with (length body) by lia.
  rewrite take_app_length, drop_app_length. done.
Qed.

Lemma readline_length (stream : str) :
  (length (readline stream).1 + length (readline stream).2 = length stream)%nat.
Proof.
  induction stream as [|c s IH]; [done|]. cbn [readline].
  destruct (Ascii.eqb c "010"); [simpl; lia|].
  destruct (readline s) as [line rest]. simpl in *. lia.
Qed.

Lemma read_length (n : Z) (stream : str) :
  (length (read n stream).2 <= length stream)%nat.
Proof.
  unfold read. destruct (n <? 0); simpl; [lia|]. rewrite length_drop. lia.
Qed.

(** Every frame read leaves a strictly shorter stream. *)
Lemma recv_frame_shorter (stream stream' : str) (r : option Msg) :
  recv_frame stream digest = Return (r, stream') ->
  (length stream' < length stream)%nat.
Proof.
  unfold recv_frame. pose proof (readline_length stream) as Hl.
  destruct (readline stream) as [header stream1]. simpl in Hl.
  destruct header as [|h0 hs]; [done|].
  destruct (unpack_header (h0 :: hs)) as [[in_digest in_length]|e]; [|done].
  cbn [mbind result_bind].
  destruct (Py.int in_length) as [n|e]; [|done].
  cbn [mbind result_bind].
  pose proof (read_length n stream1) as Hr.
  destruct (read n stream1) as [in_message stream2]. simpl in Hr.
  simpl in Hl.
  destruct (bool_decide _).
  - destruct (loads in_message); [|done]. cbn. intros [= _ <-]. lia.
  - intros [= _ <-]. lia.
Qed.

(** Fuel above the length of the stream is never used up. *)
Lemma recv_loop_fuel (fuel1 fuel2 : nat) (stream : str) :
  (length stream < fuel1)%nat -> (length stream < fuel2)%nat ->
  recv_loop fuel1 stream digest = recv_loop fuel2 stream digest.
Proof.
  revert fuel2 stream.
  induction fuel1 as [|fuel1 IH]; intros [|fuel2] stream H1 H2; try lia.
  cbn [recv_loop].
  destruct (recv_frame stream digest) as [[[m|] stream']|e] eqn:E; [| |done];
    apply recv_frame_shorter in E; by rewrite (IH fuel2 stream') by lia.
Qed.

Lemma recv_loop_enough (fuel : nat) (stream : str) :
  (length stream < fuel)%nat ->
  recv_loop fuel stream digest = recv_messages stream digest.
Proof. intros Hf. apply recv_loop_fuel; lia. Qed.

Lemma recv_messages_step (stream : str) :
  recv_messages stream digest =
  match recv_frame stream digest with
  | Raise StopIteration => ([], Exhausted)
  | Raise e => ([], Failed e)
  | Return (Some m, stream') =>
      Spec.yield_first m (recv_messages stream' digest)
  | Return (None, stream') => recv_messages stream' digest
  end.
Proof.
  unfold recv_messages at 1. cbn [recv_loop].
  destruct (recv_frame stream digest) as [[[m|] stream']|e] eqn:E; [| |done].
  - apply recv_frame_shorter in E. rewrite recv_loop_enough by lia.
    unfold Spec.yield_first. by destruct (recv_messages stream' digest).
  - apply recv_frame_shorter in E. by rewrite recv_loop_enough by lia.
Qed.

Lemma recv_messages_ends (stream : str) :
  (recv_messages stream digest).2 <> Pending.
Proof.
  remember (length stream) as n eqn:Hn. revert stream Hn.
  induction (lt_wf n) as [n _ IH]. intros stream ->.
  rewrite recv_messages_step.
  destruct (recv_frame stream digest) as [[[m|] stream']|e] eqn:E.
  - apply recv_frame_shorter in E. simpl. by eapply IH.
  - apply recv_frame_shorter in E. by eapply IH.
  - by destruct e.
Qed.

(** X25.  On a file object: a message whose serialized form loads
    back, sent as a frame (header line with digest and length, then the
    serialized body), is the first value the receiver yields, equal to
    the original, and the receiver goes on with what follows the frame.  A frame whose body
    was altered in transit, so that its digest is no longer the one in
    the header, is dropped without being yielded and the receiver goes
    on with what follows it, so a good frame behind it is still
    delivered.  An empty header read ends the sequence, and the
    receiver always comes to an end. *)
Theorem framed_messages_round_trip (m : Msg) (rest : str) :
  loads (dumps m) = Return m ->
  Spec.header_safe (digest (dumps m)) = true ->
  recv_messages (send_message [] m digest ++ rest) digest
    = Spec.yield_first m (recv_messages rest digest)
  /\ (forall body : str,
        length body = length (dumps m) ->
        digest body <> digest (dumps m) ->
        recv_messages
          (make_header (digest (dumps m)) (len (dumps m)) ++ body ++ rest)
          digest
        = recv_messages rest digest
        /\ recv_messages
             (make_header (digest (dumps m)) (len (dumps m)) ++ body
              ++ send_message [] m digest)
             digest
           = ([m], Exhausted))
  /\ recv_messages [] digest = ([], Exhausted)
  /\ (recv_messages rest digest).2 <> Pending.
Proof.
  intros Hser Hsafe.
  assert (Hgood : forall rest',
            recv_messages (send_message [] m digest ++ rest') digest
            = Spec.yield_first m (recv_messages rest' digest)).
  { intros rest'. rewrite recv_messages_step. unfold send_message. simpl app.
    rewrite <- app_assoc, recv_frame_framed by done.
    rewrite bool_decide_eq_true_2 by done. by rewrite Hser. }
  assert (Hbad : forall body rest',
            length body = length (dumps m) ->
            digest body <> digest (dumps m) ->
            recv_messages
              (make_header (digest (dumps m)) (len (dumps m)) ++ body ++ rest')
              digest
            = recv_messages rest' digest).
  { intros body rest' Hlen Hdig. rewrite recv_messages_step.
    replace (len (dumps m)) with (len body) by (unfold len; by rewrite Hlen).
    rewrite recv_frame_framed by done.
    by rewrite bool_decide_eq_false_2 by done. }
  split; [apply Hgood|]. split; [|split; [done | apply recv_messages_ends]].
  intros body Hlen Hdig. split; [by apply Hbad|].
  rewrite (Hbad body _ Hlen Hdig).
  rewrite <- (app_nil_r (send_message [] m digest)). by rewrite Hgood.
Qed.

End Frames.

(** A message sent through the sample serializer and checksum comes
    back, whatever follows it in the file. *)
Lemma framed_messages_round_trip_witness :
  recv_messages
    (send_message [] $"hello" Samples.checksum ++ $"junk") Samples.checksum
  = Spec.yield_first $"hello" (recv_messages $"junk" Samples.checksum).
Proof.
  apply (framed_messages_round_trip Samples.checksum $"hello" $"junk");
    reflexivity.
Defined.

Lemma digits_of_raise (vs : str) (c : ascii) :
  c ∈ vs -> Spec.digit_of c = None ->
  Spec.conversion_error (Spec.digits_of vs).
Proof.
  induction vs as [|v vs IH]; intros Hin Hc.
  - by apply elem_of_nil in Hin.
  - simpl. destruct (Spec.digit_of v) as [d|] eqn:Hv.
    + apply elem_of_cons in Hin as [->|Hin]; [congruence|].
      destruct (IH Hin Hc) as [c' Hc']. exists c'. by rewrite Hc'.
    + by exists v.
Qed.

Lemma conversion_error_unnamed (c : ascii) :
  Py.invalid_literal [c] ∉ Spec.named_errors.
Proof.
  unfold Spec.named_errors. rewrite !elem_of_cons, elem_of_nil.
  intros [Heq|[Heq|[Heq|[Heq|[]]]]]; discriminate Heq.
Qed.

Lemma removelast_eight (t : str) :
  length t = 8%nat -> Spec.all_but_last t = Spec.first_seven t.
Proof.
  intros Ht. do 9 (destruct t as [|? t]; try done).
Qed.

(** C4, as amended.  Strict ISSN validation checks, in order, that the
    value is text, that it has 9 characters, that it holds a hyphen, and
    that the check digit equals the final character, each failure with
    an error of its own, and returns the ISSN when all hold.  The check
    digit is the weighted sum over every character but the last of the
    text without its hyphens (these are its first 7 characters when the
    text has one hyphen), taken mod 11, 0 for remainder 0, else 11 minus
    the remainder, 10 written [X]; a character that is no digit raises
    the error of its conversion.  [0102-6720] validates, with check
    digit [0]. *)
Theorem validate_issn_checks_in_order :
  (forall issn : pyval,
     validate_issn issn = Spec.issn_rule Spec.all_but_last issn)
  /\ (forall s : str,
        length (Py.remove_char "-" s) = 8%nat ->
        Spec.all_but_last (Py.remove_char "-" s)
        = Spec.first_seven (Py.remove_char "-" s))
  /\ NoDup Spec.named_errors
  /\ calc_check_digit_issn $"0102-6720" = Return $"0"
  /\ validate_issn (PyStr $"0102-6720") = Return $"0102-6720".
Proof.
  split; [apply validate_issn_rule|].
  split; [intros s; apply removelast_eight|].
  split; [|split; reflexivity].
  unfold Spec.named_errors.
  repeat (apply NoDup_cons; split;
          [rewrite ?elem_of_cons, elem_of_nil; intros H; decompose [or] H;
           try discriminate; done |]).
  apply NoDup_nil. done.
Qed.

(** C4 as stated fails on [00-02-001]: the code sums the six characters
    before the last and accepts the text; the sum over the first seven
    characters left after the hyphens go gives check digit [X], a
    check-digit error. *)
Lemma validate_issn_first_seven_fails :
  validate_issn (PyStr $"00-02-001") = Return $"00-02-001"
  /\ Spec.issn_rule Spec.first_seven (PyStr $"00-02-001")
     = Raise (ValueError $"Invaid ISSN")
  /\ validate_issn (PyStr $"00-02-001")
     <> Spec.issn_rule Spec.first_seven (PyStr $"00-02-001").
Proof. split; [|split]; [reflexivity | reflexivity | discriminate]. Qed.

(** C10, as amended.  For a 9-character text with a hyphen, when some
    character before the last one of the text without its hyphens is no
    decimal digit, strict validation raises the value error of the digit
    conversion, which is none of the four named errors, and
    [is_valid_issn] returns false. *)
Theorem validate_issn_digit_conversion (s : str) (c : ascii) :
  length s = 9%nat ->
  "-"%char ∈ s ->
  c ∈ Spec.all_but_last (Py.remove_char "-" s) ->
  Spec.digit_of c = None ->
  Spec.conversion_error (validate_issn (PyStr s))
  /\ (forall e, validate_issn (PyStr s) = Raise e -> e ∉ Spec.named_errors)
  /\ is_valid_issn (PyStr s) = Return false.
Proof.
  intros Hlen Hhyph Hin Hc.
  assert (Hconv : Spec.conversion_error (validate_issn (PyStr s))).
  { rewrite validate_issn_rule. unfold Spec.issn_rule.
    rewrite bool_decide_eq_false_2 by (intros ?; done).
    rewrite bool_decide_eq_false_2 by (intros ?; done).
    destruct (digits_of_raise _ _ Hin Hc) as [c' Hc'].
    exists c'. by rewrite Hc'. }
  split; [done|]. destruct Hconv as [c' Hc'].
  split.
  - intros e He. rewrite Hc' in He. injection He as <-.
    apply conversion_error_unnamed.
  - unfold is_valid_issn. by rewrite Hc'.
Qed.

Lemma validate_issn_digit_conversion_witness :
  Spec.conversion_error (validate_issn (PyStr $"abcd-efgh"))
  /\ (forall e, validate_issn (PyStr $"abcd-efgh") = Raise e ->
                e ∉ Spec.named_errors)
  /\ is_valid_issn (PyStr $"abcd-efgh") = Return false.
Proof.
  apply (validate_issn_digit_conversion $"abcd-efgh" "a").
  - reflexivity.
  - compute_done.
  - compute_done.
  - reflexivity.
Defined.

(** C10 as stated fails on [00-02-00X]: [X] is the seventh character of
    the text without its hyphens and is no digit, but the code never
    converts it; the error raised is the check-digit one. *)
Lemma validate_issn_seventh_not_converted :
  length $"00-02-00X" = 9%nat
  /\ "-"%char ∈ $"00-02-00X"
  /\ "X"%char ∈ Spec.first_seven (Py.remove_char "-" $"00-02-00X")
  /\ Spec.digit_of "X" = None
  /\ validate_issn (PyStr $"00-02-00X") = Raise (ValueError $"Invaid ISSN")
  /\ ~ Spec.conversion_error (validate_issn (PyStr $"00-02-00X")).
Proof.
  repeat split; try reflexivity; try compute_done.
  intros [c Hc]. discriminate Hc.
Qed.

(** What [parse_issue_tag] computes on a non-empty text.  With the
    marker [sup] found case-insensitively: as number, the text before
    the marker as it reads in the lower-cased copy the marker is looked
    up in, trimmed, absent when that is empty; as label, the text as
    given from the marker up to, and excluding, the next space; as
    value, what follows the label, trimmed, absent when empty.  A text
    without the marker is the number, as given, label and value absent.
    The four examples of the specification come out as written. *)
Theorem parse_issue_tag_components :
  (forall (c : ascii) (text : str),
     parse_issue_tag (Some (c :: text))
     = Spec.issue_designator Py.lower (c :: text))
  /\ parse_issue_tag (Some $"2") = (Some $"2", None, None)
  /\ parse_issue_tag (Some $"Suppl") = (None, Some $"Suppl", None)
  /\ parse_issue_tag (Some $"3 Suppl 1") = (Some $"3", Some $"Suppl", Some $"1")
  /\ parse_issue_tag (Some $"Suppl 1") = (None, Some $"Suppl", Some $"1").
Proof.
  split; [apply parse_issue_tag_designator|]. repeat split; reflexivity.
Qed.

(** C6, on the code.  On [3A Suppl 1] the number comes back in lower
    case, [3a], where the text before the marker reads [3A]: the number
    is sliced from the lower-cased copy of the text.  The label of the
    same text, and the number of a text without the marker, keep the
    case in which they were given. *)
Lemma parse_issue_tag_number_lowered :
  parse_issue_tag (Some $"3A Suppl 1") = (Some $"3a", Some $"Suppl", Some $"1")
  /\ Spec.issue_designator Spec.as_given $"3A Suppl 1"
     = (Some $"3A", Some $"Suppl", Some $"1")
  /\ parse_issue_tag (Some $"3A Suppl 1")
     <> Spec.issue_designator Spec.as_given $"3A Suppl 1"
  /\ parse_issue_tag (Some $"3A") = (Some $"3A", None, None).
Proof.
  split; [|split; [|split]];
    [reflexivity | reflexivity | discriminate | reflexivity].
Qed.

(** C9.  For an absent or empty issue-tag text, parsing returns the
    three components absent: the number is absent, not the empty text. *)
Theorem parse_issue_tag_empty :
  parse_issue_tag None = (None, None, None)
  /\ parse_issue_tag (Some []) = (None, None, None)
  /\ (parse_issue_tag (Some [])).1.1 <> Some [].
Proof. split; [|split]; [reflexivity | reflexivity | discriminate]. Qed.

(** C7, as amended.  The supplement goes to the number axis when a
    number is present and not empty, and to the volume axis otherwise;
    of the pair returned (volume-level, number-level) the other
    component is absent, so exactly one is present when the supplement
    is, and none when it is absent. *)
Theorem supplement_type_axis (volume number suppl : option str) :
  (Spec.present number -> supplement_type volume number suppl = (None, suppl))
  /\ (~ Spec.present number ->
      supplement_type volume number suppl = (suppl, None))
  /\ (Spec.exactly_one (supplement_type volume number suppl)
      <-> suppl <> None).
Proof.
  unfold supplement_type.
  destruct number as [[|c n]|]; simpl.
  - split; [intros (s & [= <-] & Hs); done|]. split; [done|].
    destruct suppl; simpl; split; intros; done.
  - split; [done|]. split.
    + intros Hn. exfalso. apply Hn. by exists (c :: n).
    + destruct suppl; simpl; split; intros; done.
  - split; [intros (s & Hs & _); done|]. split; [done|].
    destruct suppl; simpl; split; intros; done.
Qed.

(** C7 as stated fails when there is no supplement: for volume [01] and
    number [2] both components returned are absent. *)
Lemma supplement_type_none_present :
  supplement_type (Some $"01") (Some $"2") None = (None, None)
  /\ ~ Spec.exactly_one (supplement_type (Some $"01") (Some $"2") None).
Proof. split; [reflexivity | intros []]. Qed.

End UtilsFacts.

(** * utils.py: messages over a socket *)

Module SocketFacts.
Import Utils PyFacts UtilsFacts.
Import FileLikeSocket (left_of).

(** [int] reads back what [str] wrote, without the line feed that the
    [readline] of a socket has dropped. *)
Lemma int_digits (n : N) : Py.int (Py.str_of_N n) = Return (Z.of_N n).
Proof.
  pose proof (str_of_N_digits n) as Hd.
  pose proof (str_of_N_nonempty n) as Hne.
  assert (Hstrip : Py.strip (Py.str_of_N n) = Py.str_of_N n).
  { unfold Py.strip, Py.rstrip. rewrite (lstrip_digits (Py.str_of_N n)) by done.
    rewrite lstrip_digits; [apply rev_involutive|].
    rewrite forallb_forall in *. intros x Hx. apply Hd.
    by apply (proj2 (in_rev (Py.str_of_N n) x)). }
  unfold Py.int. rewrite Hstrip.
  assert (Hparse : NilEmpty.uint_of_string (string_of_list_ascii (Py.str_of_N n))
                   = Some (N.to_uint n)).
  { unfold Py.str_of_N.
    rewrite string_of_list_ascii_of_string. apply NilEmpty.usu. }
  destruct (Py.str_of_N n) as [|c s] eqn:E; [done|].
  apply andb_prop in Hd as [Hc _]. apply digit_not_sign in Hc as [Hm Hp].
  destruct c as [[] [] [] [] [] [] [] []]; try done;
    rewrite Hparse, DecimalN.Unsigned.of_to; done.
Qed.

Lemma recv_piece (n : nat) (c : ascii) (piece : str) (rest : list str) :
  FileLikeSocket.recv n ((c :: piece) :: rest)
  = (take n (c :: piece), left_of (drop n (c :: piece)) rest).
Proof. reflexivity. Qed.

Lemma left_of_app (line : str) (c : ascii) (tail : str) (rest : list str) :
  left_of (line ++ c :: tail) rest = (line ++ c :: tail) :: rest.
Proof. by destruct line. Qed.

Lemma readline_piece (line tail : str) (rest : list str) (fuel : nat) (chars : str) :
  forallb (fun c => negb (Ascii.eqb c "010")) line = true ->
  FileLikeSocket.readline fuel ((line ++ "010"%char :: tail) :: rest) chars = None
  \/ FileLikeSocket.readline fuel ((line ++ "010"%char :: tail) :: rest) chars
     = Some (chars ++ line, left_of tail rest).
Proof.
  revert fuel chars. induction line as [|c line IH]; intros fuel chars Hl.
  - destruct fuel as [|fuel]; [by left|]. right.
    cbn [FileLikeSocket.readline app]. rewrite recv_piece.
    cbn [take drop]. rewrite bool_decide_eq_true_2 by done.
    rewrite take_0, drop_0. cbn [negb]. by rewrite app_nil_r.
  - apply andb_prop in Hl as [Hc Hl].
    destruct fuel as [|fuel]; [by left|].
    cbn [FileLikeSocket.readline app]. rewrite recv_piece.
    cbn [take drop]. rewrite take_0, drop_0.
    rewrite bool_decide_eq_false_2.
    2: { intros [= ->]. done. }
    cbn [negb]. rewrite left_of_app.
    destruct (IH fuel (chars ++ [c]) Hl) as [->| ->]; [by left|].
    right. by rewrite <- app_assoc.
Qed.

Lemma readline_piece_enough (line tail : str) (rest : list str) (fuel : nat) (chars : str) :
  forallb (fun c => negb (Ascii.eqb c "010")) line = true ->
  (length line < fuel)%nat ->
  FileLikeSocket.readline fuel ((line ++ "010"%char :: tail) :: rest) chars
     = Some (chars ++ line, left_of tail rest).
Proof.
  revert fuel chars. induction line as [|c line IH]; intros fuel chars Hl Hf.
  - destruct fuel as [|fuel]; [simpl in Hf; lia|].
    cbn [FileLikeSocket.readline app]. rewrite recv_piece.
    cbn [take drop]. rewrite bool_decide_eq_true_2 by done.
    rewrite take_0, drop_0. cbn [negb]. by rewrite app_nil_r.
  - apply andb_prop in Hl as [Hc Hl].
    destruct fuel as [|fuel]; [simpl in Hf; lia|].
    cbn [FileLikeSocket.readline app]. rewrite recv_piece.
    cbn [take drop]. rewrite take_0, drop_0.
    rewrite bool_decide_eq_false_2.
    2: { intros [= ->]. done. }
    cbn [negb]. rewrite left_of_app.
    rewrite IH; [|done|simpl in Hf; lia].
    by rewrite <- app_assoc.
Qed.

Lemma recv_one_no_line_feed (sock sock' : list str) (char : str) :
  Forall (fun piece => "010"%char ∉ piece) sock ->
  FileLikeSocket.recv 1 sock = (char, sock') ->
  char <> ["010"%char] /\ Forall (fun piece => "010"%char ∉ piece) sock'.
Proof.
  induction sock as [|piece rest IH]; intros Hs.
  - simpl. intros [= <- <-]. done.
  - apply Forall_cons in Hs as [Hp Hrest].
    destruct piece as [|c piece]; [by apply IH|].
    rewrite recv_piece. cbn [take drop]. rewrite take_0, drop_0.
    intros [= <- <-]. split.
    + intros [= ->]. apply Hp. left.
    + unfold left_of. destruct piece as [|x xs]; [done|].
      constructor; [|done]. intros Hin. apply Hp. by right.
Qed.

(** Without a line feed to come, [readline] does not return. *)
Lemma readline_no_line_feed (fuel : nat) (sock : list str) (chars : str) :
  Forall (fun piece => "010"%char ∉ piece) sock ->
  FileLikeSocket.readline fuel sock chars = None.
Proof.
  revert sock chars. induction fuel as [|fuel IH]; intros sock chars Hs; [done|].
  cbn [FileLikeSocket.readline].
  destruct (FileLikeSocket.recv 1 sock) as [char sock'] eqn:E.
  destruct (recv_one_no_line_feed sock sock' char Hs E) as [Hc Hs'].
  rewrite bool_decide_eq_false_2 by done. cbn [negb]. by apply IH.
Qed.

(** On bytes that come in one piece, [readline] is the loop of
    [FileLikeSocket_readline]. *)
Lemma readline_one_piece (fuel : nat) (sock chars : str) :
  FileLikeSocket.readline fuel (left_of sock []) chars
  = (fun '(line, rest) => (line, left_of rest []))
      <$> FileLikeSocket_readline fuel sock chars.
Proof.
  revert sock chars. induction fuel as [|fuel IH]; intros sock chars; [done|].
  destruct sock as [|c sock].
  - cbn [FileLikeSocket.readline FileLikeSocket_readline left_of
         FileLikeSocket.recv].
    rewrite bool_decide_eq_false_2 by done. apply (IH []).
  - cbn [FileLikeSocket_readline left_of FileLikeSocket.readline].
    rewrite recv_piece. cbn [take drop]. rewrite take_0, drop_0.
    destruct (Ascii.eqb_spec c "010") as [->|Hc].
    + by rewrite bool_decide_eq_true_2.
    + rewrite bool_decide_eq_false_2 by congruence. apply IH.
Qed.

Section SocketFrames.
Context {Msg : Type} `{Pickle Msg} (digest : str -> str).

Lemma recv_loop_socket_no_line_feed (fuel : nat) (sock : list str) :
  Forall (fun piece => "010"%char ∉ piece) sock ->
  recv_loop_socket fuel sock digest = ([], Pending).
Proof.
  intros Hs. destruct fuel as [|fuel]; [done|].
  cbn [recv_loop_socket]. unfold recv_frame_socket.
  by rewrite readline_no_line_feed.
Qed.

Lemma unpack_header_socket (d : str) (n : nat) :
  Spec.header_safe d = true ->
  unpack_header (d ++ $" " ++ Py.str_of_N (N.of_nat n))
  = Return (d, Py.str_of_N (N.of_nat n)).
Proof.
  intros Hsafe. apply header_safe_split in Hsafe as [Hsp _].
  unfold unpack_header.
  change (d ++ $" " ++ Py.str_of_N (N.of_nat n))
    with (d ++ " "%char :: Py.str_of_N (N.of_nat n)).
  rewrite split_first by done. rewrite split_none; [done|].
  apply digits_no; [done|]. apply str_of_N_digits.
Qed.


(** The first turn of the receiver on a frame whose body comes in two
    pieces: the header is read, the one [recv] returns the first piece
    only, and the frame is dropped. *)
Lemma recv_frame_socket_short_read (d b1 b2 : str) (rest : list str)
    (fuel : nat) :
  Spec.header_safe d = true ->
  b1 <> [] -> b2 <> [] -> d <> digest b1 ->
  let sock := (make_header d (len (b1 ++ b2)) ++ b1) :: b2 :: rest in
  recv_frame_socket fuel sock digest = None
  \/ recv_frame_socket fuel sock digest = Some (Return (None, b2 :: rest)).
Proof.
  intros Hsafe Hb1 Hb2 Hd sock. unfold sock, recv_frame_socket, make_header.
  rewrite str_of_Z_len.
  set (ds := Py.str_of_N (N.of_nat (length (b1 ++ b2)))).
  replace ((d ++ $" " ++ ds ++ ["010"%char]) ++ b1)
    with ((d ++ $" " ++ ds) ++ "010"%char :: b1).
  2: { rewrite <- !app_assoc. done. }
  destruct (readline_piece (d ++ $" " ++ ds) b1 (b2 :: rest) fuel [])
    as [->| ->]; [|by left|right].
  { apply header_safe_split in Hsafe as [_ Hnl].
    rewrite !forallb_app, Hnl. simpl. apply digits_no; [done|].
    apply str_of_N_digits. }
  cbn [app]. destruct (d ++ $" " ++ ds) as [|h0 hs] eqn:Eh; [by destruct d|].
  rewrite <- Eh. clear Eh h0 hs. f_equal.
  unfold ds. rewrite unpack_header_socket by done.
  cbn [mbind result_bind]. rewrite int_digits. cbn [mbind result_bind].
  unfold FileLikeSocket.read.
  destruct (Z.ltb_spec (Z.of_N (N.of_nat (length (b1 ++ b2)))) 0) as [E|E]; [lia|].
  cbn [mbind result_bind].
  replace (Z.to_nat (Z.of_N (N.of_nat (length (b1 ++ b2)))))
    with (length (b1 ++ b2)) by lia.
  destruct b1 as [|c b1]; [done|]. unfold left_of at 1. rewrite recv_piece.
  rewrite take_ge, drop_ge by (rewrite length_app; lia).
  cbn [left_of]. by rewrite bool_decide_eq_false_2.
Qed.

(** A frame that comes in one piece is read whole, and yielded when
    the digest of its body is the one its header names. *)
Lemma recv_frame_socket_whole (d body : str) (rest : list str) (fuel : nat) :
  Spec.header_safe d = true -> body <> [] ->
  (length (make_header d (len body)) <= fuel)%nat ->
  recv_frame_socket fuel ((make_header d (len body) ++ body) :: rest) digest
  = Some (if bool_decide (d = digest body)
          then m ← loads body; Return (Some m, rest)
          else Return (None, rest)).
Proof.
  intros Hsafe Hb. unfold recv_frame_socket, make_header.
  rewrite str_of_Z_len.
  set (ds := Py.str_of_N (N.of_nat (length body))).
  replace ((d ++ $" " ++ ds ++ ["010"%char]) ++ body)
    with ((d ++ $" " ++ ds) ++ "010"%char :: body).
  2: { rewrite <- !app_assoc. done. }
  replace (d ++ $" " ++ ds ++ ["010"%char])
    with ((d ++ $" " ++ ds) ++ ["010"%char]).
  2: { rewrite <- !app_assoc. done. }
  rewrite length_app. cbn [length]. intros Hfuel.
  rewrite readline_piece_enough; [| |lia].
  2: { apply header_safe_split in Hsafe as [_ Hnl].
       rewrite !forallb_app, Hnl. simpl. apply digits_no; [done|].
       apply str_of_N_digits. }
  clear Hfuel.
  cbn [app]. destruct (d ++ $" " ++ ds) as [|h0 hs] eqn:Eh; [by destruct d|].
  rewrite <- Eh. clear Eh h0 hs. f_equal.
  unfold ds. rewrite unpack_header_socket by done.
  cbn [mbind result_bind]. rewrite int_digits. cbn [mbind result_bind].
  unfold FileLikeSocket.read.
  destruct (Z.ltb_spec (Z.of_N (N.of_nat (length body))) 0) as [E|E]; [lia|].
  cbn [mbind result_bind].
  replace (Z.to_nat (Z.of_N (N.of_nat (length body)))) with (length body) by lia.
  destruct body as [|c body]; [done|]. unfold left_of at 1. rewrite recv_piece.
  rewrite take_ge, drop_ge by lia. done.
Qed.

(** Once the peer has closed, the receiver on a socket neither yields
    nor stops, where on a file object it stops at once. *)
Lemma recv_messages_on_closed (fuel : nat) :
  recv_messages_on fuel (ConnectedSocket []) digest = ([], Pending)
  /\ recv_messages_on fuel (FileObject []) digest = ([], Exhausted).
Proof. split; [by apply recv_loop_socket_no_line_feed | done]. Qed.

Lemma recv_messages_sent (m : Msg) (rest : str) :
  loads (dumps m) = Return m ->
  Spec.header_safe (digest (dumps m)) = true ->
  recv_messages (send_message [] m digest ++ rest) digest
  = Spec.yield_first m (recv_messages rest digest).
Proof.
  intros Hser Hsafe. rewrite recv_messages_step. unfold send_message.
  simpl app. rewrite <- app_assoc, recv_frame_framed by done.
  rewrite bool_decide_eq_true_2 by done. by rewrite Hser.
Qed.

(** C3, on the code.  Over a socket the body of a frame is read with one
    [recv], which returns no more than the piece that has arrived.  When
    the body of a message comes in two pieces, the bytes being the very
    ones [send_message] sent, the receiver compares the digest of the
    first piece with the header, drops the frame and then waits for a
    line feed that never comes: the message is not yielded and the
    sequence does not end, however long the receiver runs.  The same
    message written to a file object is yielded, and the sequence
    ends. *)
Theorem recv_messages_socket_short_read (m : Msg) (b1 b2 : str) (fuel : nat) :
  loads (dumps m) = Return m ->
  Spec.header_safe (digest (dumps m)) = true ->
  dumps m = b1 ++ b2 -> b1 <> [] -> b2 <> [] ->
  digest b1 <> digest (dumps m) ->
  forallb (fun c => negb (Ascii.eqb c "010")) b2 = true ->
  let sock := [make_header (digest (dumps m)) (len (dumps m)) ++ b1; b2] in
  concat sock = send_message_socket [] m digest
  /\ recv_messages_on fuel (FileObject (send_message [] m digest)) digest
     = ([m], Exhausted)
  /\ recv_messages_on fuel (ConnectedSocket sock) digest = ([], Pending)
  /\ recv_messages_on fuel (ListeningSocket sock) digest = ([], Pending).
Proof.
  intros Hser Hsafe Hsplit Hb1 Hb2 Hdig Hnl sock.
  assert (Hsent : concat sock = send_message_socket [] m digest).
  { unfold sock, send_message_socket, FileLikeSocket.write. cbn [concat app].
    rewrite app_nil_r, <- app_assoc. by rewrite <- Hsplit. }
  assert (Hsock : recv_loop_socket fuel sock digest = ([], Pending)).
  { destruct fuel as [|fuel]; [done|]. cbn [recv_loop_socket].
    unfold sock. rewrite Hsplit.
    destruct (recv_frame_socket_short_read
                (digest (b1 ++ b2)) b1 b2 [] fuel) as [->| ->];
      [by rewrite <- Hsplit|done|done|by rewrite <- Hsplit|done|].
    apply recv_loop_socket_no_line_feed. apply Forall_singleton.
    intros Hin. rewrite forallb_forall in Hnl.
    apply list_elem_of_In, Hnl in Hin. done. }
  split; [done|]. split; [|done].
  cbn [recv_messages_on].
  rewrite <- (app_nil_r (send_message [] m digest)).
  by rewrite recv_messages_sent.
Qed.

End SocketFrames.

Lemma recv_messages_socket_short_read_witness :
  recv_messages_on 100 (ConnectedSocket Samples.split_delivery)
                   Samples.checksum
  = ([], Pending)
  /\ recv_messages_on 100
       (FileObject (send_message [] $"hello" Samples.checksum))
       Samples.checksum
     = ([$"hello"], Exhausted)
  /\ concat Samples.split_delivery
     = send_message_socket [] $"hello" Samples.checksum.
Proof.
  destruct (recv_messages_socket_short_read
              Samples.checksum $"hello" $"Shel" $"lo" 100)
    as (Hsent & Hfile & Hsock & _);
    [reflexivity | reflexivity | reflexivity | done | done
    | by vm_compute | reflexivity | ].
  split; [exact Hsock | split; [exact Hfile | exact Hsent]].
Defined.

End SocketFacts.


(** * vpipes.py against the specification *)

Module VpipesFacts.
Import Models Vpipes.

Section Pipe.
Context {Pkg Data Sess : Type} `{ValidationPipe Pkg Data Sess}.

Lemma attempt_is_valid_unmet (it : item Pkg Data Sess) :
  is_valid (attempt_of it) <> Some true ->
  attempt_is_valid it = Raise UnmetPrecondition.
Proof.
  intros Hv. unfold attempt_is_valid.
  by rewrite bool_decide_eq_false_2.
Qed.

Lemma attempt_is_valid_met (it : item Pkg Data Sess) :
  is_valid (attempt_of it) = Some true -> attempt_is_valid it = Return tt.
Proof.
  intros Hv. unfold attempt_is_valid. by rewrite bool_decide_eq_true_2.
Qed.

(** Past the gate, a tuple reaches [validate]. *)
Lemma transform_valid_validates
    (a : Attempt) (pkg : Pkg) (data : Data) (session : Sess) :
  is_valid a = Some true ->
  Validate (Tuple4 a pkg data session)
    ∈ (transform (Tuple4 a pkg data session)).1.
Proof.
  intros Hv. unfold transform, precondition.
  rewrite attempt_is_valid_met by done. simpl.
  destruct (validate _) as [[st descr]|e]; [|apply list_elem_of_here].
  destruct (tell _ _ _ _ _); apply list_elem_of_here.
Qed.

(** C8.  An item, bare attempt or 4-tuple, whose attempt's validity flag
    is not exactly true comes back from [transform] unchanged, and
    [validate] is not invoked for it. *)
Theorem transform_skips_invalid (it : item Pkg Data Sess) :
  is_valid (attempt_of it) <> Some true ->
  transform it = ([], Return it)
  /\ forall x, Validate x ∉ (transform it).1.
Proof.
  intros Hv.
  assert (Ht : transform it = ([], Return it)).
  { unfold transform, precondition. by rewrite attempt_is_valid_unmet. }
  split; [done|]. intros x. rewrite Ht. apply not_elem_of_nil.
Qed.

End Pipe.

Lemma transform_skips_invalid_witness :
  (transform (Bare (Pkg:=unit) (Data:=unit) (Sess:=unit)
                   (Samples.attempt_with (Some false)))
   = ([], Return (Bare (Samples.attempt_with (Some false))))
   /\ forall x,
        Validate x ∉
          (transform (Bare (Pkg:=unit) (Data:=unit) (Sess:=unit)
                           (Samples.attempt_with (Some false)))).1)
  /\ (transform (Tuple4 (Samples.attempt_with None) tt tt tt)
      = ([], Return (Tuple4 (Samples.attempt_with None) tt tt tt))
      /\ forall x,
           Validate x ∉
             (transform (Tuple4 (Samples.attempt_with None) tt tt tt)).1).
Proof.
  split.
  - apply (transform_skips_invalid (Bare (Samples.attempt_with (Some false)))).
    discriminate.
  - apply (transform_skips_invalid (Tuple4 (Samples.attempt_with None) tt tt tt)).
    discriminate.
Defined.

End VpipesFacts.

(** * balaio.py against the specification *)

Module BalaioFacts.
Import Balaio.

Lemma wait_all_falsy (p : Popen) (tries elapsed : nat) :
  (forall t, (elapsed <= t < elapsed + tries)%nat -> not_ (poll p t) = true) ->
  wait p tries elapsed = Spec.polls (pid p) tries ++ [Kill (pid p)].
Proof.
  revert elapsed. induction tries as [|n IH]; intros elapsed Hf; [done|].
  simpl. rewrite Hf by lia. do 2 f_equal. apply IH.
  intros t Ht. apply Hf. lia.
Qed.

Lemma kill_not_in_polls (pid' pid : nat) (n : nat) : Kill pid' ∉ Spec.polls pid n.
Proof.
  induction n as [|n IH]; simpl; [apply not_elem_of_nil|].
  rewrite !not_elem_of_cons. done.
Qed.

Lemma wait_no_request (p : Popen) (tries elapsed : nat) :
  Spec.terminate_requests (wait p tries elapsed) = [].
Proof.
  revert elapsed. induction tries as [|n IH]; intros elapsed; [done|].
  simpl. destruct (not_ _); [|done]. apply IH.
Qed.

(** A child that never exits is polled 10 times, half a second apart,
    and then killed. *)
Lemma terminate_one_never_exits (p : Popen) :
  exits p = None ->
  terminate_one p
  = Terminate (pid p) :: Spec.polls (pid p) 10 ++ [Kill (pid p)].
Proof.
  intros Hp. unfold terminate_one. f_equal. apply wait_all_falsy.
  intros t _. unfold poll. by rewrite Hp.
Qed.

(** A child that exits within the window with a status other than 0 is
    not killed. *)
Lemma terminate_one_nonzero_exit (p : Popen) (k : nat) (status : Z) :
  exits p = Some (k, status) -> status <> 0 -> (k < 10)%nat ->
  Kill (pid p) ∉ terminate_one p.
Proof.
  intros Hp Hs Hk. unfold terminate_one.
  rewrite not_elem_of_cons. split; [done|].
  assert (Hw : forall tries elapsed,
             (elapsed <= k < elapsed + tries)%nat ->
             Kill (pid p) ∉ wait p tries elapsed).
  { induction tries as [|n IH]; intros elapsed He; [lia|].
    simpl. rewrite not_elem_of_cons. split; [done|].
    unfold poll at 1. rewrite Hp.
    destruct (Nat.leb_spec k elapsed) as [Hle|Hgt]; simpl.
    - apply Z.eqb_neq in Hs. rewrite Hs. apply not_elem_of_nil.
    - rewrite not_elem_of_cons. split; [done|]. apply IH. lia. }
  apply Hw. lia.
Qed.

(** A child that exits with status 0 looks alive to every poll, and is
    killed all the same. *)
Lemma terminate_one_zero_exit (p : Popen) (k : nat) :
  exits p = Some (k, 0) ->
  terminate_one p
  = Terminate (pid p) :: Spec.polls (pid p) 10 ++ [Kill (pid p)].
Proof.
  intros Hp. unfold terminate_one. f_equal. apply wait_all_falsy.
  intros t _. unfold poll. rewrite Hp. by destruct (k <=? t)%nat.
Qed.

(** C2, on the code.  A child that exits at once with status 0 upon the
    terminate request is polled through the whole window and then
    force-killed. *)
Theorem terminate_kills_clean_exit :
  terminate [Samples.clean_child]
  = Terminate 7 :: Spec.polls 7 10 ++ [Kill 7]
  /\ Kill 7 ∈ terminate [Samples.clean_child].
Proof. split; [reflexivity | compute_done]. Qed.

End BalaioFacts.

(** * checkout.py against the specification *)

Module CheckoutFacts.
Import Models Checkout.

Section Runner.
Context {Front : Type} `{Boundary Front}.

Lemma bind_run {A B} (m : prog Front A) (k : A -> prog Front B) (w : World Front) :
  (m ≫= k) w = match m w with
               | (w', Return a) => k a w'
               | (w', Raise e) => (w', Raise e)
               end.
Proof. reflexivity. Qed.

Lemma bind_Return {A B} (m : prog Front A) (k : A -> prog Front B)
    (w w' : World Front) (b : B) :
  (m ≫= k) w = (w', Return b) ->
  exists a w1, m w = (w1, Return a) /\ k a w1 = (w', Return b).
Proof.
  rewrite bind_run. destruct (m w) as [w1 [a|e]]; [eauto | done].
Qed.

Lemma io_only_ret {A} (a : A) : Spec.io_only (mret a : prog Front A).
Proof. by intros w. Qed.

Lemma io_only_raise {A} (e : exn) : Spec.io_only (raise e : prog Front A).
Proof. by intros w. Qed.

Lemma io_only_call {A} (ev : event Front) (reply : list (event Front) -> result A) :
  Spec.io_only (call ev reply).
Proof. by intros w. Qed.

Lemma io_only_bind {A B} (m : prog Front A) (k : A -> prog Front B) :
  Spec.io_only m -> (forall a, Spec.io_only (k a)) -> Spec.io_only (m ≫= k).
Proof.
  intros Hm Hk w. rewrite bind_run. specialize (Hm w).
  destruct (m w) as [w1 [a|e]]; simpl in *; [|done].
  destruct Hm as [Hc0 Hw0]. destruct (Hk a w1) as [Hc Hw]. split; congruence.
Qed.

Lemma io_only_getitem (d : gmap str str) (key : str) : Spec.io_only (getitem (Front:=Front) d key).
Proof. unfold getitem. destruct (d !! key); [apply io_only_ret | apply io_only_raise]. Qed.

Lemma io_only_upload_files (attempt : Attempt) (ext : str)
    (files : list StaticFile) (d : gmap str str) :
  Spec.io_only (upload_files attempt ext files d).
Proof.
  revert d. induction files as [|f fs IH]; intros d; simpl.
  - apply io_only_ret.
  - apply io_only_bind; [apply io_only_call | intros uri; apply IH].
Qed.

Lemma io_only_upload_kinds (attempt : Attempt) (exts : list str) (d : gmap str str) :
  Spec.io_only (upload_kinds attempt exts d).
Proof.
  revert d. induction exts as [|ext exts IH]; intros d; simpl.
  - apply io_only_ret.
  - apply io_only_bind; [apply io_only_upload_files | intros d'; apply IH].
Qed.

Lemma io_only_upload_static_files (attempt : Attempt) :
  Spec.io_only (upload_static_files attempt).
Proof.
  unfold upload_static_files.
  apply io_only_bind; [apply io_only_upload_kinds | intros d].
  apply io_only_bind; [apply io_only_call | intros uri; apply io_only_ret].
Qed.

Lemma io_only_upload_meta_front (attempt : Attempt) (d : gmap str str) :
  Spec.io_only (upload_meta_front attempt d).
Proof.
  unfold upload_meta_front.
  apply io_only_bind; [by intros w | intros fr].
  do 3 (apply io_only_bind; [apply io_only_getitem | intros ?]).
  apply io_only_call.
Qed.

(** What a finished checkout leaves in the session: the row's flag is
    cleared and only that row changed. *)
Lemma checkout_procedure_done (row : nat) (w w' : World Front) :
  checkout_procedure (Job row) w = (w', Return tt) ->
  committed w' = committed w
  /\ Spec.cleared (working w') row
  /\ (forall r, r <> row -> working w' !! r = working w !! r).
Proof.
  unfold checkout_procedure.
  destruct (working w !! row) as [attempt|] eqn:Hrow; [|done].
  intros Hrun.
  apply bind_Return in Hrun as ([] & w1 & H1 & Hrun).
  apply bind_Return in Hrun as (d & w2 & H2 & Hrun).
  apply bind_Return in Hrun as ([] & w3 & H3 & Hrun).
  injection H1 as <-. injection Hrun as <-.
  destruct (io_only_upload_static_files attempt
    {| committed := committed w;
       working := alter (set_checkout_started_at (now (trace w))) row (working w);
       trace := trace w |}) as [Hc2 Hw2].
  rewrite H2 in Hc2, Hw2. simpl in Hc2, Hw2.
  destruct (io_only_upload_meta_front attempt d w2) as [Hc3 Hw3].
  rewrite H3 in Hc3, Hw3. simpl in Hc3, Hw3. simpl.
  split; [congruence|]. rewrite Hw3, Hw2. split.
  - exists (set_queued_checkout false
              (set_checkout_started_at (now (trace w)) attempt)).
    split; [|done].
    rewrite !list_lookup_alter_eq. by rewrite Hrow.
  - intros r Hr. by rewrite !list_lookup_alter_ne by done.
Qed.

(** A checkout that raises has not touched the stored rows either. *)
Lemma checkout_procedure_keeps_committed (it : item) :
  Spec.keeps_committed (checkout_procedure it).
Proof.
  intros w. destruct it as [row|row]; [done|]. unfold checkout_procedure.
  destruct (working w !! row) as [attempt|]; [|done].
  rewrite bind_run. cbn [setattr].
  set (w0 := {| committed := committed w; working := _; trace := trace w |}).
  rewrite bind_run.
  destruct (io_only_upload_static_files attempt w0) as [Hc1 _].
  destruct (upload_static_files attempt w0) as [w1 [d|e]]; simpl in Hc1; [|done].
  rewrite bind_run.
  destruct (io_only_upload_meta_front attempt d w1) as [Hc2 _].
  destruct (upload_meta_front attempt d w1) as [w2 [[]|e]]; simpl in *; congruence.
Qed.

Lemma enqueue_jobs (rows : list nat) (lst : list item) (w : World Front) :
  enqueue rows lst w = (w, Return (lst ++ (Job <$> rows))).
Proof.
  revert lst. induction rows as [|row rows IH]; intros lst; simpl.
  - by rewrite app_nil_r.
  - rewrite bind_run. cbn [CheckoutList_append mret prog_ret].
    rewrite IH. by rewrite <- app_assoc.
Qed.

Lemma pool_map_keeps_committed (jobs : list item) (order : list nat) :
  Spec.keeps_committed (pool_map checkout_procedure jobs order).
Proof.
  induction order as [|k order IH]; intros w; [done|]. simpl.
  destruct (jobs !! k) as [job|]; [|apply IH].
  rewrite bind_run.
  pose proof (checkout_procedure_keeps_committed job w) as Hc.
  destruct (checkout_procedure job w) as [w0 [[]|e]]; simpl in Hc; [|done].
  rewrite IH. done.
Qed.

(** After a batch in which no job raised, every job that ran has its
    attempt's flag cleared in the session. *)
Lemma pool_map_cleared (jobs : list item) (order : list nat)
    (w w1 : World Front) :
  pool_map checkout_procedure jobs order w = (w1, Return tt) ->
  (forall row, Spec.cleared (working w) row -> Spec.cleared (working w1) row)
  /\ (forall k row, k ∈ order -> jobs !! k = Some (Job row) ->
                    Spec.cleared (working w1) row).
Proof.
  revert w. induction order as [|k order IH]; intros w Hrun.
  - injection Hrun as <-. split; [done|]. intros k row Hk. by apply elem_of_nil in Hk.
  - simpl in Hrun. destruct (jobs !! k) as [job|] eqn:Hjob.
    + apply bind_Return in Hrun as ([] & w0 & Hjobrun & Hrest).
      destruct job as [row0|row0]; [done|].
      apply checkout_procedure_done in Hjobrun as (_ & Hown & Hothers).
      destruct (IH _ Hrest) as [Hkeep Hran].
      assert (Hstep : forall row, Spec.cleared (working w) row ->
                                  Spec.cleared (working w0) row).
      { intros row (a & Ha & Hq). destruct (decide (row = row0)) as [->|Hne];
          [done|]. exists a. by rewrite Hothers. }
      split; [intros row Hrow; by apply Hkeep, Hstep|].
      intros k' row Hin Hk'. apply elem_of_cons in Hin as [->|Hin].
      * rewrite Hjob in Hk'. injection Hk' as <-. by apply Hkeep.
      * by apply (Hran k').
    + destruct (IH _ Hrun) as [Hkeep Hran]. split; [done|].
      intros k' row Hin Hk'. apply elem_of_cons in Hin as [->|Hin];
        [congruence | by apply (Hran k')].
Qed.

(** The batch raises exactly when one of its jobs does, the jobs before
    it in the pool's order having run to their end. *)
Lemma pool_map_raises (f : item -> prog Front unit) (jobs : list item)
    (order : list nat) (w w1 : World Front) (e : exn) :
  pool_map f jobs order w = (w1, Raise e) <->
  exists pre k post job w0,
    order = pre ++ k :: post /\ jobs !! k = Some job
    /\ pool_map f jobs pre w = (w0, Return tt)
    /\ f job w0 = (w1, Raise e).
Proof.
  revert w. induction order as [|k order IH]; intros w.
  - split; [done|]. intros (pre & k & post & _ & _ & Habs & _).
    by destruct pre.
  - simpl. destruct (jobs !! k) as [job|] eqn:Hjob.
    + rewrite bind_run. destruct (f job w) as [w0 [[]|e0]] eqn:Hf.
      * rewrite IH. split.
        -- intros (pre & k' & post & job' & w0' & -> & Hk' & Hpre & Hrun).
           exists (k :: pre), k', post, job', w0'. split; [done|].
           split; [done|]. split; [|done].
           simpl. rewrite Hjob, bind_run, Hf. done.
        -- intros (pre & k' & post & job' & w0' & Ho & Hk' & Hpre & Hrun).
           destruct pre as [|p pre]; simplify_eq/=.
           ++ unfold mret, prog_ret in Hpre. congruence.
           ++ rewrite Hjob, bind_run, Hf in Hpre.
              exists pre, k', post, job', w0'. done.
      * split.
        -- intros [= <- <-]. exists [], k, order, job, w. done.
        -- intros (pre & k' & post & job' & w0' & Ho & Hk' & Hpre & Hrun).
           destruct pre as [|p pre]; simplify_eq/=;
             [unfold mret, prog_ret in Hpre; congruence|].
           rewrite Hjob, bind_run, Hf in Hpre. done.
    + rewrite IH. split.
      * intros (pre & k' & post & job' & w0' & -> & Hk' & Hpre & Hrun).
        exists (k :: pre), k', post, job', w0'. split; [done|].
        split; [done|]. split; [|done]. simpl. by rewrite Hjob.
      * intros (pre & k' & post & job' & w0' & Ho & Hk' & Hpre & Hrun).
        destruct pre as [|p pre]; simplify_eq/=.
        rewrite Hjob in Hpre. exists pre, k', post, job', w0'. done.
Qed.

(** C1.  In a turn of the run loop with a batch of eligible attempts:
    when processing the batch raises, because one of its items raised,
    the unit of work is aborted, so the stored rows are those from
    before the batch and none of its mutations, no cleared
    [queued_checkout] among them, is committed, and the exception comes
    out of the loop; when no item raises, the session is committed as
    the batch left it, each processed attempt with its flag cleared. *)
Theorem main_iteration_all_or_nothing (order : list nat)
    (w w1 : World Front) (r : result unit) :
  eligible_from 0 (working w) <> [] ->
  pool_map checkout_procedure (Job <$> eligible_from 0 (working w)) order w
    = (w1, r) ->
  match r with
  | Raise e =>
      (exists pre k post job w0,
         order = pre ++ k :: post
         /\ (Job <$> eligible_from 0 (working w)) !! k = Some job
         /\ checkout_procedure job w0 = (w1, Raise e))
      /\ main_iteration order w
         = ({| committed := committed w; working := committed w;
               trace := trace w1 |}, Raise e)
      /\ (forall fuel turn orders,
            orders turn = order ->
            main_loop (S fuel) turn orders w
            = ({| committed := committed w; working := committed w;
                  trace := trace w1 |}, Raise e))
  | Return _ =>
      main_iteration order w
        = ({| committed := working w1; working := working w1;
              trace := trace w1 ++ [Slept (checkout_time * 60)] |}, Return tt)
      /\ (forall k row,
            k ∈ order -> eligible_from 0 (working w) !! k = Some row ->
            Spec.cleared (working w1) row)
      /\ (order ≡ₚ seq 0 (length (eligible_from 0 (working w))) ->
          forall row, row ∈ eligible_from 0 (working w) ->
                      Spec.cleared (working w1) row)
  end.
Proof.
  intros Hrows Hrun.
  assert (Hiter : main_iteration order w =
            match r with
            | Raise e => ({| committed := committed w; working := committed w;
                             trace := trace w1 |}, Raise e)
            | Return _ => ({| committed := working w1; working := working w1;
                              trace := trace w1 ++ [Slept (checkout_time * 60)] |},
                           Return tt)
            end).
  { unfold main_iteration. rewrite bind_run. cbn [query_checkout].
    destruct (eligible_from 0 (working w)) as [|row rows] eqn:Hel; [done|].
    rewrite bind_run. unfold try_except, process_batch.
    rewrite bind_run, enqueue_jobs. cbn [app]. rewrite bind_run, Hrun.
    pose proof (pool_map_keeps_committed (Job <$> row :: rows) order w) as Hc.
    rewrite Hrun in Hc. simpl in Hc.
    destruct r as [[]|e]; [done|].
    rewrite bind_run. cbn [transaction_abort raise]. by rewrite Hc. }
  destruct r as [[]|e].
  - assert (Hran : forall k row,
              k ∈ order -> eligible_from 0 (working w) !! k = Some row ->
              Spec.cleared (working w1) row).
    { intros k row Hk Hrow.
      apply (pool_map_cleared _ _ _ _ Hrun) with (k := k); [done|].
      by rewrite list_lookup_fmap, Hrow. }
    split; [done|]. split; [done|].
    intros Hperm row Hin. apply list_elem_of_lookup in Hin as [k Hk].
    apply (Hran k); [|done]. rewrite Hperm. apply elem_of_seq.
    apply lookup_lt_Some in Hk. lia.
  - split; [|split; [done|]].
    + apply pool_map_raises in Hrun
        as (pre & k & post & job & w0 & Ho & Hk & _ & Hjob).
      by exists pre, k, post, job, w0.
    + intros fuel turn orders <-.
      cbn [main_loop]. by rewrite bind_run, Hiter.
Qed.

Lemma with_trace_same (w : World Front) : Spec.with_trace w (trace w) = w.
Proof. by destruct w. Qed.

Lemma upload_files_run (attempt : Attempt) (ext : str)
    (files : list StaticFile) (d : gmap str str) (w : World Front) :
  Spec.backend_answers ->
  exists d',
    upload_files attempt ext files d w
    = (Spec.with_trace w (trace w ++ (Spec.sent_for attempt <$> files)),
       Return d')
    /\ (forall key, key <> ext -> d' !! key = d !! key)
    /\ match last files with
       | None => d' = d
       | Some _ => Spec.last_upload (trace w) attempt files (d' !! ext)
       end.
Proof.
  intros Hsend. revert d w. induction files as [|f fs IH]; intros d w.
  - exists d. simpl. rewrite app_nil_r, with_trace_same. done.
  - cbn [upload_files]. rewrite bind_run. unfold static_send. cbn [call].
    destruct (Hsend (trace w) (content f)
                (get_static_path STATIC_PATH (aid attempt) (name f)))
      as [uri0 Huri0].
    rewrite Huri0.
    set (w' := {| committed := committed w; working := working w;
                  trace := trace w ++ _ |}).
    destruct (IH (<[ext := uri0]> d) w') as (d' & Hrun & Hkeys & Hlast).
    exists d'. split; [|split].
    + rewrite Hrun. unfold Spec.with_trace. simpl.
      by rewrite <- app_assoc.
    + intros key Hk. rewrite Hkeys by done. by rewrite lookup_insert_ne.
    + destruct fs as [|g fs'].
      * simpl in Hlast. subst d'. unfold Spec.last_upload. simpl.
        exists uri0. rewrite app_nil_r. split; [done|].
        by rewrite lookup_insert_eq.
      * change (last (f :: g :: fs')) with (last (g :: fs')).
        destruct (last (g :: fs')) as [l|] eqn:Hl.
        2: { by apply last_None in Hl. }
        unfold Spec.last_upload in *.
        change (last (f :: g :: fs')) with (last (g :: fs')).
        rewrite Hl in *.
        destruct Hlast as (uri & Huri & Hd'). exists uri. split; [|done].
        change (removelast (f :: g :: fs')) with (f :: removelast (g :: fs')).
        unfold w' in Huri. simpl in Huri. rewrite <- app_assoc in Huri.
        done.
Qed.

Lemma foldl_insert_last (files : list StaticFile) (d0 : gmap str str) (n : str) :
  foldl (fun d f => <[name f := content f]> d) d0 files !! n
  = match Spec.last_named files n with
    | Some c => Some c
    | None => d0 !! n
    end.
Proof.
  induction files as [|f fs IH] using rev_ind; [done|].
  rewrite foldl_app. simpl. unfold Spec.last_named in *.
  rewrite filter_app.
  destruct (decide (name f = n)) as [<-|Hne].
  - rewrite lookup_insert_eq.
    rewrite filter_cons_True by done. rewrite filter_nil.
    by rewrite last_snoc.
  - rewrite lookup_insert_ne by done.
    rewrite filter_cons_False by done. rewrite filter_nil, app_nil_r.
    done.
Qed.

Lemma collect_images_last (attempt : Attempt) (n : str) :
  collect_images attempt IMAGES_EXTENSION !! n
  = Spec.last_named (get_fps (filepath attempt) $"tif"
                     ++ get_fps (filepath attempt) $"eps") n.
Proof.
  unfold collect_images, IMAGES_EXTENSION. cbn [foldl].
  rewrite <- foldl_app, foldl_insert_last, lookup_empty.
  by destruct (Spec.last_named _ n).
Qed.

(** C5, as amended.  When the static backend takes every upload, the
    upload of an attempt's static assets sends every XML entry, then
    every PDF entry, then one zip of the images as [images.zip], and
    returns a map in which [img] holds the URI of the zip, [xml] and
    [pdf] each hold the URI returned for the last entry of the kind and
    are missing when the archive has no entry of the kind, and no other
    key occurs.  The zip is made from a dictionary that maps each image
    file name to the bytes of the last [tif] or [eps] entry so named. *)
Theorem upload_static_files_result (attempt : Attempt) (w : World Front) :
  Spec.backend_answers ->
  let xmls := get_fps (filepath attempt) $"xml" in
  let pdfs := get_fps (filepath attempt) $"pdf" in
  let imgs := get_fps (filepath attempt) $"tif"
              ++ get_fps (filepath attempt) $"eps" in
  let dict_img := collect_images attempt IMAGES_EXTENSION in
  let uploads := Spec.sent_for attempt <$> (xmls ++ pdfs) in
  let zip_path := Spec.static_path attempt NAME_ZIP_FILE in
  exists uri_dict uri_img,
    upload_static_files attempt w
    = (Spec.with_trace w
         (trace w ++ uploads ++ [Sent (zip_files dict_img) zip_path]),
       Return uri_dict)
    /\ (forall n, dict_img !! n = Spec.last_named imgs n)
    /\ Spec.uri_of (trace w ++ uploads) (zip_files dict_img) zip_path uri_img
    /\ uri_dict !! $"img" = Some uri_img
    /\ Spec.last_upload (trace w) attempt xmls (uri_dict !! $"xml")
    /\ Spec.last_upload (trace w ++ (Spec.sent_for attempt <$> xmls))
         attempt pdfs (uri_dict !! $"pdf")
    /\ (forall key, is_Some (uri_dict !! key) ->
                    key ∈ [$"xml"; $"pdf"; $"img"]).
Proof.
  intros Hsend xmls pdfs imgs dict_img uploads zip_path.
  unfold upload_static_files, FILES_EXTENSION. cbn [upload_kinds].
  rewrite !bind_run.
  destruct (upload_files_run attempt $"xml" xmls ∅ w Hsend)
    as (d1 & Hrun1 & Hkeys1 & Hlast1).
  fold xmls. rewrite Hrun1.
  set (w1 := Spec.with_trace w _).
  destruct (upload_files_run attempt $"pdf" pdfs d1 w1 Hsend)
    as (d2 & Hrun2 & Hkeys2 & Hlast2).
  fold pdfs. rewrite !bind_run, Hrun2. cbn [mret prog_ret]. rewrite ?bind_run.
  set (w2 := Spec.with_trace w1 _).
  unfold static_send. cbn [call]. fold dict_img.
  destruct (Hsend (trace w2) (zip_files dict_img) zip_path) as [uri_img Himg].
  change (get_static_path STATIC_PATH (aid attempt) NAME_ZIP_FILE) with zip_path.
  rewrite Himg. cbn [mret prog_ret].
  assert (Htr2 : trace w2 = trace w ++ uploads).
  { unfold w2, w1, uploads. simpl. by rewrite fmap_app, app_assoc. }
  exists (<[$"img" := uri_img]> d2), uri_img.
  split.
  { unfold mret, prog_ret. rewrite Htr2. f_equal.
    unfold w2, w1, Spec.with_trace. simpl. by rewrite <- app_assoc. }
  split; [apply collect_images_last|].
  split; [unfold Spec.uri_of; by rewrite <- Htr2|].
  split; [apply lookup_insert_eq|].
  assert (Hxml : d2 !! $"xml" = d1 !! $"xml") by (by apply Hkeys2).
  assert (Hx : Spec.last_upload (trace w) attempt xmls (d1 !! $"xml")).
  { unfold Spec.last_upload in *. destruct (last xmls); [done|].
    subst d1. apply lookup_empty. }
  assert (Hp : Spec.last_upload (trace w1) attempt pdfs (d2 !! $"pdf")).
  { unfold Spec.last_upload in *. destruct (last pdfs); [done|].
    subst d2. rewrite Hkeys1 by done. apply lookup_empty. }
  split; [rewrite lookup_insert_ne by done; by rewrite Hxml|].
  split; [by rewrite lookup_insert_ne by done|].
  intros key [v Hv].
  destruct (decide (key = $"img")) as [->|Hi]; [set_solver|].
  rewrite lookup_insert_ne in Hv by done.
  destruct (decide (key = $"pdf")) as [->|Hpd]; [set_solver|].
  rewrite Hkeys2 in Hv by done.
  destruct (decide (key = $"xml")) as [->|Hxm]; [set_solver|].
  rewrite Hkeys1 in Hv by done. by rewrite lookup_empty in Hv.
Qed.

End Runner.

(** Three eligible attempts, the second without its PDF: the turn raises
    the [KeyError] of the second and the stored rows stay as they were. *)
Lemma main_iteration_all_or_nothing_witness :
  (main_iteration [0; 1; 2]%nat Samples.three_ready).2
    = Raise (KeyError $"pdf")
  /\ committed (main_iteration [0; 1; 2]%nat Samples.three_ready).1
     = committed Samples.three_ready.
Proof.
  destruct (main_iteration_all_or_nothing [0; 1; 2]%nat Samples.three_ready
              (pool_map checkout_procedure
                 (Job <$> eligible_from 0 (working Samples.three_ready))
                 [0; 1; 2]%nat Samples.three_ready).1
              (Raise (KeyError $"pdf")))
    as (_ & Hturn & _).
  - discriminate.
  - reflexivity.
  - rewrite Hturn. split; reflexivity.
Defined.

Lemma upload_static_files_result_witness :
  exists uri_dict,
    (upload_static_files (Samples.ready $"/in/a.zip") Samples.three_ready).2
      = Return uri_dict
    /\ uri_dict !! $"img" = Some $"http://static/articles/a1/images.zip"
    /\ (forall key, is_Some (uri_dict !! key) ->
                    key ∈ [$"xml"; $"pdf"; $"img"]).
Proof.
  destruct (upload_static_files_result
              (Samples.ready $"/in/a.zip") Samples.three_ready)
    as (uri_dict & uri_img & Hrun & _ & Huri & Himg & _ & _ & Hkeys).
  - intros tr body path. eexists. reflexivity.
  - exists uri_dict. rewrite Hrun. split; [reflexivity|]. split; [|exact Hkeys].
    rewrite Himg. unfold Spec.uri_of in Huri. simpl in Huri.
    injection Huri as <-. reflexivity.
Defined.

(** C5 as stated fails for a package without XML and PDF entries: the
    map returned has the key [img] alone. *)
Lemma upload_static_files_one_key :
  (upload_static_files (H := Samples.empty_packages)
     (Samples.ready $"/in/a.zip") Samples.three_ready).2
  = Return {[ $"img" := $"http://static/articles/a1/images.zip" ]}
  /\ ({[ $"img" := $"http://static/articles/a1/images.zip" ]} : gmap str str)
       !! $"xml" = None
  /\ ({[ $"img" := $"http://static/articles/a1/images.zip" ]} : gmap str str)
       !! $"pdf" = None.
Proof. split; [|split]; reflexivity. Qed.

End CheckoutFacts.

(** * More of utils.py *)

Module UtilsMore.
Import Utils PyFacts UtilsFacts.

Section Digest.
Context `{Hmac}.

Lemma digest_chunks_all (fuel : nat) (file : str) (hash : hmac_state) :
  (length file < fuel)%nat ->
  digest_chunks fuel file hash = Some (hmac_update hash file).
Proof.
  revert file hash. induction fuel as [|fuel IH]; intros file hash Hf; [lia|].
  cbn [digest_chunks]. destruct file as [|c file].
  - rewrite take_nil. by rewrite hmac_update_nil.
  - change (take 1024 (c :: file)) with (c :: take 1023 file).
    rewrite IH.
    + rewrite hmac_update_app.
      change (c :: take 1023 file) with (take 1024 (c :: file)).
      by rewrite take_drop.
    + rewrite length_drop. simpl in *. lia.
Qed.

(** X1.  The digest of a file object is the digest of the byte string it
    holds: reading it in chunks of 1024 bytes feeds the hash the same
    bytes, and the loop ends on the first empty read. *)
Theorem make_digest_file_as_string (content secret : str) :
  make_digest (MsgFile content) secret
  = Some (Return (hmac_hexdigest (hmac_update (hmac_new secret) content)))
  /\ make_digest (MsgFile content) secret = make_digest (MsgStr content) secret.
Proof.
  unfold make_digest. rewrite digest_chunks_all by lia. done.
Qed.

End Digest.

(** X3.  However often [setup_logging] is called, it acts once: every
    call after the first changes nothing, so at most one socket handler
    is ever added, and the flag is set from the first call on. *)
Theorem setup_logging_once (n : nat) (st : logging) :
  Nat.iter (S n) setup_logging st = setup_logging st
  /\ (length (handlers (Nat.iter n setup_logging st))
      <= S (length (handlers st)))%nat
  /\ has_logger (Nat.iter (S n) setup_logging st) = true.
Proof.
  assert (Hidem : forall s, setup_logging (setup_logging s) = setup_logging s).
  { intros s. unfold setup_logging. destruct (has_logger s) eqn:E; simpl; by rewrite ?E. }
  assert (Hiter : forall k, Nat.iter (S k) setup_logging st = setup_logging st).
  { induction k as [|k IH]; [done|]. simpl in *. by rewrite IH, Hidem. }
  split; [apply Hiter|]. split.
  - destruct n as [|n]; [simpl; lia|]. rewrite Hiter. unfold setup_logging.
    destruct (has_logger st); simpl; [lia|]. rewrite length_app. simpl. lia.
  - rewrite Hiter. unfold setup_logging. by destruct (has_logger st) eqn:E.
Qed.

Section Config.
Context `{ConfigSource}.

(** X14.  After [setenv(configfile)] the application's configuration is
    loaded from the absolute path of [configfile]; the migration
    configuration is looked up as before; with the variable unset the
    load fails with the missing-variable [ValueError]. *)
Theorem setenv_then_config (configfile : str) (environ : gmap str str) :
  balaio_config_from_env (Balaio.setenv configfile environ)
  = from_file (abspath configfile)
  /\ alembic_config_from_env (Balaio.setenv configfile environ)
     = alembic_config_from_env environ
  /\ (environ !! $"BALAIO_SETTINGS_FILE" = None ->
      balaio_config_from_env environ
      = Raise (ValueError $"missing env variable BALAIO_SETTINGS_FILE")).
Proof.
  unfold balaio_config_from_env, alembic_config_from_env, config_from_env,
    Balaio.setenv.
  rewrite lookup_insert_eq. rewrite lookup_insert_ne by done.
  split; [done|]. split; [done|]. by intros ->.
Qed.

End Config.

Lemma readline_gathers (fuel : nat) (line rest chars : str) :
  "010"%char ∉ line ->
  (length line < fuel)%nat ->
  FileLikeSocket_readline fuel (line ++ "010"%char :: rest) chars
  = Some (chars ++ line, rest).
Proof.
  revert line chars. induction fuel as [|fuel IH]; intros line chars Hl Hf; [lia|].
  destruct line as [|c line]; cbn [FileLikeSocket_readline app].
  - by rewrite app_nil_r.
  - apply not_elem_of_cons in Hl as [Hc Hl].
    destruct (Ascii.eqb_spec c "010") as [->|_]; [done|]. simpl negb. cbv iota.
    rewrite IH; [|done|simpl in Hf; lia]. by rewrite <- app_assoc.
Qed.

(** X12.  On a socket that holds a line feed, [readline] returns the
    bytes before the first line feed, without it, and leaves what
    follows it unread. *)
Theorem socket_readline_line (line rest : str) :
  "010"%char ∉ line ->
  FileLikeSocket_readline (S (length line)) (line ++ "010"%char :: rest) []
  = Some (line, rest).
Proof. intros Hl. by rewrite readline_gathers by (done || lia). Qed.

(** X13.  On a socket whose peer closed without sending a line feed,
    [readline] never returns: the empty read is no line feed, so the
    loop goes on whatever the number of turns. *)
Theorem socket_readline_never_returns (fuel : nat) (sock chars : str) :
  "010"%char ∉ sock ->
  FileLikeSocket_readline fuel sock chars = None.
Proof.
  revert sock chars. induction fuel as [|fuel IH]; intros sock chars Hs; [done|].
  destruct sock as [|c sock]; cbn [FileLikeSocket_readline].
  - by apply IH.
  - apply not_elem_of_cons in Hs as [Hc Hs].
    destruct (Ascii.eqb_spec c "010") as [->|_]; [done|]. by apply IH.
Qed.

Lemma socket_readline_line_witness :
  FileLikeSocket_readline 3 ($"ok" ++ "010"%char :: $"rest") []
  = Some ($"ok", $"rest").
Proof.
  apply (socket_readline_line $"ok" $"rest"). compute_done.
Defined.

Lemma socket_readline_never_returns_witness :
  FileLikeSocket_readline 1000 $"no line feed here" [] = None.
Proof.
  apply (socket_readline_never_returns 1000 $"no line feed here" []).
  compute_done.
Defined.

Lemma digits_of_value_error (vs : str) (e : exn) :
  Spec.digits_of vs = Raise e -> exists msg, e = ValueError msg.
Proof.
  revert e. induction vs as [|v vs IH]; intros e; simpl; [done|].
  destruct (Spec.digit_of v).
  - destruct (Spec.digits_of vs) as [ds|e']; simpl; [done|].
    intros [= <-]. by apply IH.
  - intros [= <-]. by eexists.
Qed.

(** What strict validation can end in. *)
Lemma validate_issn_outcomes (issn : pyval) :
  (exists s, issn = PyStr s /\ length s = 9%nat /\ validate_issn issn = Return s)
  \/ (exists msg, validate_issn issn = Raise (ValueError msg))
  \/ (exists msg, validate_issn issn = Raise (TypeError msg)).
Proof.
  rewrite validate_issn_rule. destruct issn as [| b | z | s]; simpl;
    try (right; right; by eexists).
  case_bool_decide as Hlen; [right; left; by eexists|].
  case_bool_decide as Hh; [right; left; by eexists|].
  destruct (Spec.digits_of _) as [ds|e] eqn:Hd; simpl.
  - case_bool_decide.
    + left. exists s. split; [done|]. split; [|done].
      destruct (decide (length s = 9%nat)); [done|]. by exfalso.
    + right; left; by eexists.
  - right; left. apply digits_of_value_error in Hd as [msg ->]. by eexists.
Qed.

(** X6.  [is_valid_issn] never raises: for every input it returns a
    boolean, true exactly when strict validation returns. *)
Theorem is_valid_issn_never_raises (issn : pyval) :
  exists b : bool,
    is_valid_issn issn = Return b
    /\ (b = true <-> exists s, validate_issn issn = Return s).
Proof.
  unfold is_valid_issn.
  destruct (validate_issn_outcomes issn)
    as [(s & _ & Hlen & ->)|[[msg ->]|[msg ->]]].
  - exists true. split; [by destruct s|]. split; [eauto | done].
  - exists false. split; [done|]. split; [done | intros [s Hs]; done].
  - exists false. split; [done|]. split; [done | intros [s Hs]; done].
Qed.

(** X7.  Strict validation does not check where the hyphens stand: two
    9-character texts with a hyphen, the same characters once the
    hyphens are removed and the same final character are both accepted
    or both refused. *)
Theorem validate_issn_any_hyphen_place (s t : str) :
  length s = 9%nat -> length t = 9%nat ->
  "-"%char ∈ s -> "-"%char ∈ t ->
  Py.remove_char "-" s = Py.remove_char "-" t ->
  last s = last t ->
  (validate_issn (PyStr s) = Return s <-> validate_issn (PyStr t) = Return t).
Proof.
  intros Hs Ht Hhs Hht Hrm Hlast. rewrite !validate_issn_rule.
  unfold Spec.issn_rule.
  rewrite !(bool_decide_eq_false_2 (length _ ≠ 9%nat)) by (intros ?; done).
  rewrite !(bool_decide_eq_false_2 ("-"%char ∉ _)) by (intros ?; done).
  rewrite Hrm, Hlast.
  destruct (Spec.digits_of _) as [ds|e]; simpl; [|done].
  case_bool_decide; done.
Qed.

Lemma validate_issn_any_hyphen_place_witness :
  validate_issn (PyStr $"0102-6720") = Return $"0102-6720"
  <-> validate_issn (PyStr $"01026-720") = Return $"01026-720".
Proof.
  apply validate_issn_any_hyphen_place; try reflexivity; compute_done.
Defined.

Lemma trimmed_not_empty (s : str) : Spec.trimmed_or_absent s <> Some [].
Proof. unfold Spec.trimmed_or_absent. by destruct (Py.strip s). Qed.

Lemma before_space_no_space (s : str) : " "%char ∉ Spec.before_space s.
Proof.
  induction s as [|c s IH]; simpl; [apply not_elem_of_nil|].
  destruct (Ascii.eqb_spec c " ") as [->|Hne]; [apply not_elem_of_nil|].
  apply not_elem_of_cons. split; [congruence | done].
Qed.

Lemma parse_issue_tag_value (tag : option str) :
  (parse_issue_tag tag).2 <> Some [].
Proof.
  destruct tag as [[|c text]|]; try done.
  rewrite parse_issue_tag_designator. unfold Spec.issue_designator.
  destruct (Py.index_of _ _); [apply trimmed_not_empty | done].
Qed.

(** X8.  No component [parse_issue_tag] returns is the empty text, and a
    label holds no space and starts with the marker [sup] in some
    letter case. *)
Theorem parse_issue_tag_no_empty_component (tag : option str) :
  (parse_issue_tag tag).1.1 <> Some []
  /\ (parse_issue_tag tag).1.2 <> Some []
  /\ (parse_issue_tag tag).2 <> Some []
  /\ (forall label,
        (parse_issue_tag tag).1.2 = Some label ->
        (" "%char ∉ label) /\ Py.lower (take 3 label) = $"sup").
Proof.
  destruct tag as [[|c text]|]; try (repeat split; done).
  rewrite parse_issue_tag_designator. unfold Spec.issue_designator.
  destruct (Py.index_of $"sup" (Py.lower (c :: text))) as [p|] eqn:E; simpl.
  2: { repeat split; done. }
  apply index_of_Some in E as (_ & [rest Hpre] & _).
  rewrite <- lower_drop in Hpre.
  destruct (marker_in_label _ _ Hpre) as (x & y & z & l & Hxyz & Hl).
  split; [apply trimmed_not_empty|]. split; [by rewrite Hl|].
  split; [apply trimmed_not_empty|].
  intros label [= <-]. split; [apply before_space_no_space|].
  by rewrite Hl.
Qed.

Lemma rindex_of_None (c : ascii) (s : str) :
  Py.rindex_of c s = None <-> c ∉ s.
Proof.
  induction s as [|x s IH]; simpl.
  - split; [intros _; apply not_elem_of_nil | done].
  - rewrite not_elem_of_cons. destruct (Py.rindex_of c s) as [i|].
    + split; [done|]. intros [_ Hs]. by apply IH in Hs.
    + destruct (Ascii.eqb_spec x c) as [->|Hne].
      * split; [done | intros [Hc _]; done].
      * split; [intros _; split; [congruence | by apply IH] | done].
Qed.

Lemma rindex_of_app (c : ascii) (a b : str) :
  Py.rindex_of c (a ++ b)
  = match Py.rindex_of c b with
    | Some i => Some (length a + i)%nat
    | None => Py.rindex_of c a
    end.
Proof.
  induction a as [|x a IH]; simpl.
  - by destruct (Py.rindex_of c b).
  - rewrite IH. by destruct (Py.rindex_of c b).
Qed.

Lemma rindex_of_last (c : ascii) (h x : str) :
  c ∉ x -> Py.rindex_of c (h ++ c :: x) = Some (length h).
Proof.
  intros Hx. rewrite rindex_of_app. simpl.
  apply rindex_of_None in Hx. rewrite Hx, Ascii.eqb_refl.
  f_equal. lia.
Qed.

Lemma rindex_of_Some (c : ascii) (s : str) (i : nat) :
  Py.rindex_of c s = Some i ->
  exists h x, s = h ++ c :: x /\ c ∉ x.
Proof.
  revert i. induction s as [|y s IH]; intros i; simpl; [done|].
  destruct (Py.rindex_of c s) as [j|] eqn:E.
  - intros _. destruct (IH j eq_refl) as (h & x & -> & Hx).
    by exists (y :: h), x.
  - destruct (Ascii.eqb_spec y c) as [->|]; [|done]. intros _.
    exists [], s. split; [done|]. by apply rindex_of_None.
Qed.

Lemma slice_to_nat (s : str) (p : nat) :
  (p <= length s)%nat -> Py.slice_to s (Z.of_nat p) = take p s.
Proof. intros Hp. unfold Py.slice_to. by rewrite clamp_nat. Qed.

Lemma lstrip_char_head (c : ascii) (s : str) :
  head (Py.lstrip_char c s) <> Some c.
Proof.
  induction s as [|x s IH]; simpl; [done|].
  destruct (Ascii.eqb_spec x c) as [->|Hne]; [done|]. simpl. congruence.
Qed.

Lemma lstrip_char_same (c : ascii) (s : str) :
  head s <> Some c -> Py.lstrip_char c s = s.
Proof.
  destruct s as [|x s]; simpl; [done|]. intros Hx.
  destruct (Ascii.eqb_spec x c) as [->|]; done.
Qed.

Lemma lstrip_char_empty (c : ascii) (s : str) :
  Py.lstrip_char c s = [] -> Py.all_char c s = true.
Proof.
  unfold Py.all_char. induction s as [|x s IH]; simpl; [done|].
  destruct (Ascii.eqb x c); [apply IH | done].
Qed.

Lemma all_char_rev (c : ascii) (s : str) :
  Py.all_char c (rev s) = Py.all_char c s.
Proof.
  unfold Py.all_char. apply eq_true_iff_eq. rewrite !forallb_forall.
  split; intros Hs x Hx; apply Hs.
  - by apply (proj1 (in_rev s x)).
  - by apply (proj2 (in_rev s x)).
Qed.

Lemma endswith_char_rev (c : ascii) (s : str) :
  Py.endswith_char c s = true <-> head (rev s) = Some c.
Proof.
  unfold Py.endswith_char. rewrite <- (rev_involutive s) at 1.
  destruct (rev s) as [|x l]; simpl.
  - done.
  - rewrite last_snoc.
    destruct (Ascii.eqb_spec x c) as [->|Hne]; split; congruence.
Qed.

Lemma rstrip_char_end (c : ascii) (s : str) :
  Py.endswith_char c (Py.rstrip_char c s) = false.
Proof.
  apply not_true_is_false. rewrite endswith_char_rev. unfold Py.rstrip_char.
  rewrite rev_involutive. apply lstrip_char_head.
Qed.

Lemma rstrip_char_same (c : ascii) (s : str) :
  Py.endswith_char c s = false -> Py.rstrip_char c s = s.
Proof.
  intros He. unfold Py.rstrip_char. rewrite lstrip_char_same.
  - apply rev_involutive.
  - intros Hh. apply endswith_char_rev in Hh. congruence.
Qed.

Lemma rstrip_char_kept (c : ascii) (s : str) :
  Py.all_char c s = false ->
  Py.rstrip_char c s <> [] /\ Py.all_char c (Py.rstrip_char c s) = false.
Proof.
  intros Hs.
  assert (Hne : Py.rstrip_char c s <> []).
  { unfold Py.rstrip_char. intros Hr.
    apply (f_equal (@rev ascii)) in Hr. rewrite rev_involutive in Hr.
    simpl in Hr. apply lstrip_char_empty in Hr.
    rewrite all_char_rev in Hr. congruence. }
  split; [done|].
  pose proof (rstrip_char_end c s) as He. unfold Py.endswith_char in He.
  destruct (last (Py.rstrip_char c s)) as [x|] eqn:Hl.
  2: { by apply last_None in Hl. }
  apply not_true_is_false. intros Hall. unfold Py.all_char in Hall.
  rewrite forallb_forall in Hall.
  assert (Hin : In x (Py.rstrip_char c s)).
  { apply list_elem_of_In. rewrite last_lookup in Hl.
    by eapply list_elem_of_lookup_2. }
  apply Hall in Hin. congruence.
Qed.

Lemma rstrip_char_snoc (c : ascii) (h : str) :
  Py.rstrip_char c (h ++ [c]) = Py.rstrip_char c h.
Proof.
  unfold Py.rstrip_char. rewrite rev_app_distr. simpl.
  by rewrite Ascii.eqb_refl.
Qed.

Lemma all_char_snoc (c : ascii) (h : str) :
  Py.all_char c (h ++ [c]) = Py.all_char c h.
Proof.
  unfold Py.all_char. rewrite forallb_app. simpl.
  rewrite Ascii.eqb_refl. by rewrite andb_true_r.
Qed.

(** A path without a slash is all base name. *)
Lemma path_split_plain (p : str) :
  "/"%char ∉ p -> Py.path_split p = ([], p).
Proof.
  intros Hp. unfold Py.path_split, Py.rfind.
  apply rindex_of_None in Hp. rewrite Hp.
  unfold Py.slice_to, Py.slice_from.
  replace (Py.clamp p (-1 + 1)) with 0%nat; [reflexivity|].
  unfold Py.clamp. simpl. lia.
Qed.

(** A path is cut at its last slash. *)
Lemma path_split_at_slash (h x : str) :
  "/"%char ∉ x ->
  Py.path_split (h ++ "/"%char :: x)
  = (if Py.all_char "/" h then h ++ ["/"%char] else Py.rstrip_char "/" h, x).
Proof.
  intros Hx. unfold Py.path_split, Py.rfind.
  rewrite rindex_of_last by done.
  replace (Z.of_nat (length h) + 1) with (Z.of_nat (S (length h))) by lia.
  assert (Hlen : (S (length h) <= length (h ++ "/"%char :: x))%nat).
  { rewrite length_app. simpl. lia. }
  rewrite slice_to_nat, slice_from_nat by done.
  replace (h ++ "/"%char :: x) with ((h ++ ["/"%char]) ++ x)
    by (by rewrite <- app_assoc).
  replace (S (length h)) with (length (h ++ ["/"%char]))
    by (rewrite length_app; simpl; lia).
  rewrite take_app_length, drop_app_length.
  rewrite all_char_snoc, rstrip_char_snoc.
  destruct (h ++ ["/"%char]) as [|a l] eqn:E; [by destruct h|].
  by destruct (Py.all_char "/" h).
Qed.

(** The directory part of a path is made of slashes only, or it is not
    empty and does not end in a slash; the base name holds no slash. *)
Lemma path_split_parts (p : str) :
  (Py.all_char "/" (Py.path_split p).1 = true
   \/ ((Py.path_split p).1 <> []
       /\ Py.endswith_char "/" (Py.path_split p).1 = false
       /\ Py.all_char "/" (Py.path_split p).1 = false))
  /\ "/"%char ∉ (Py.path_split p).2.
Proof.
  destruct (Py.rindex_of "/" p) as [i|] eqn:E.
  - apply rindex_of_Some in E as (h & x & -> & Hx).
    rewrite path_split_at_slash by done. simpl. split; [|done].
    destruct (Py.all_char "/" h) eqn:Hall.
    + left. by rewrite all_char_snoc.
    + right. destruct (rstrip_char_kept _ _ Hall) as [Hne Hall'].
      split; [done|]. split; [apply rstrip_char_end | done].
  - apply rindex_of_None in E. rewrite path_split_plain by done.
    simpl. split; [by left | done].
Qed.

Lemma startswith_slash (x : str) :
  "/"%char ∉ x -> Py.startswith $"/" x = false.
Proof.
  destruct x as [|c x]; [done|]. intros Hx.
  apply not_elem_of_cons in Hx as [Hc _].
  change ($"/") with ["/"%char]. cbn [Py.startswith].
  destruct (Ascii.eqb_spec "/" c) as [<-|]; done.
Qed.

Lemma path_split_join (head x : str) :
  "/"%char ∉ x ->
  Py.all_char "/" head = true
  \/ (head <> [] /\ Py.endswith_char "/" head = false
      /\ Py.all_char "/" head = false) ->
  Py.path_split (Py.path_join head x) = (head, x).
Proof.
  intros Hx Hhead. unfold Py.path_join. rewrite startswith_slash by done.
  destruct (decide (head = [])) as [->|Hnn]; [by apply path_split_plain|].
  assert (Hjoin : match head with
                  | [] => x
                  | _ :: _ => if Py.endswith_char "/" head then head ++ x
                              else head ++ $"/" ++ x
                  end
                  = if Py.endswith_char "/" head then head ++ x
                    else head ++ $"/" ++ x) by (by destruct head).
  rewrite Hjoin. clear Hjoin.
  destruct Hhead as [Hall|(Hne & Hend & Hall)].
  - assert (Hlast : exists h, head = h ++ ["/"%char]).
    { destruct head as [|a l _] using rev_ind; [done|].
      exists l. unfold Py.all_char in Hall. rewrite forallb_app in Hall.
      apply andb_prop in Hall as [_ Ha]. simpl in Ha.
      destruct (Ascii.eqb_spec a "/") as [->|]; done. }
    destruct Hlast as [h ->].
    assert (Hend : Py.endswith_char "/" (h ++ ["/"%char]) = true).
    { unfold Py.endswith_char. by rewrite last_snoc. }
    rewrite Hend. rewrite <- app_assoc. simpl.
    rewrite path_split_at_slash by done.
    rewrite all_char_snoc in Hall. by rewrite Hall.
  - rewrite Hend. simpl. rewrite path_split_at_slash by done.
    by rewrite Hall, rstrip_char_same.
Qed.

(** X2.  For a prefix without a slash, [prefix_file] renames the file to
    a path with the same directory part and with the prefix put before
    the base name. *)
Theorem prefix_file_keeps_directory (filename prefix : str) :
  "/"%char ∉ prefix ->
  exists new_filename,
    prefix_file filename prefix = [Rename filename new_filename]
    /\ Py.path_split new_filename
       = ((Py.path_split filename).1, prefix ++ (Py.path_split filename).2).
Proof.
  intros Hp. unfold prefix_file.
  destruct (path_split_parts filename) as [Hhead Htail].
  destruct (Py.path_split filename) as [path file_or_dir]. simpl in *.
  eexists. split; [done|]. apply path_split_join; [|done].
  rewrite elem_of_app. intros [?|?]; done.
Qed.

Lemma prefix_file_keeps_directory_witness :
  exists new_filename,
    prefix_file $"/in/pkg.zip" $"_failed_"
    = [Rename $"/in/pkg.zip" new_filename]
    /\ Py.path_split new_filename = ($"/in", $"_failed_pkg.zip").
Proof.
  apply (prefix_file_keeps_directory $"/in/pkg.zip" $"_failed_"). compute_done.
Defined.

Lemma upper_space (c : ascii) : Py.is_space (Py.upper_ascii c) = Py.is_space c.
Proof. by destruct c as [[] [] [] [] [] [] [] []]. Qed.

Lemma upper_ascii_idem (c : ascii) :
  Py.upper_ascii (Py.upper_ascii c) = Py.upper_ascii c.
Proof. by destruct c as [[] [] [] [] [] [] [] []]. Qed.

Lemma upper_idem (s : str) : Py.upper (Py.upper s) = Py.upper s.
Proof.
  unfold Py.upper. rewrite <- list_fmap_compose. apply list_fmap_ext.
  intros i x _. apply upper_ascii_idem.
Qed.

Lemma split_ws_words (s : str) : Forall Spec.is_word (Py.split_ws s).
Proof.
  induction s as [|c s IH]; [constructor|].
  cbn [Py.split_ws]. destruct (Py.is_space c) eqn:Hc; [done|].
  assert (Hw : Spec.is_word [c]) by (split; [done | simpl; by rewrite Hc]).
  destruct s as [|c' s']; [by apply Forall_singleton|].
  destruct (Py.is_space c') eqn:Hc'; [by constructor|].
  destruct (Py.split_ws (c' :: s')) as [|w ws]; [by apply Forall_singleton|].
  apply Forall_cons in IH as [[Hne Hall] Hws]. constructor; [|done].
  split; [done|]. simpl. by rewrite Hc, Hall.
Qed.

Lemma split_ws_word_more (w : str) (rest : str) :
  Spec.is_word w ->
  Py.split_ws (w ++ " "%char :: rest) = w :: Py.split_ws rest.
Proof.
  intros [Hne Hall]. induction w as [|c w IH]; [done|].
  simpl in Hall. apply andb_prop in Hall as [Hc Hall].
  apply negb_true_iff in Hc.
  destruct w as [|c' w'].
  - cbn [app Py.split_ws]. rewrite Hc. simpl Py.is_space. cbv iota.
    done.
  - assert (Hc' : Py.is_space c' = false).
    { simpl in Hall. apply andb_prop in Hall as [Hc' _].
      by apply negb_true_iff in Hc'. }
    change ((c :: c' :: w') ++ " "%char :: rest)
      with (c :: ((c' :: w') ++ " "%char :: rest)).
    cbn [Py.split_ws]. rewrite Hc.
    change ((c' :: w') ++ " "%char :: rest)
      with (c' :: (w' ++ " "%char :: rest)) at 1.
    cbv iota. rewrite Hc'.
    change (c' :: (w' ++ " "%char :: rest))
      with ((c' :: w') ++ " "%char :: rest).
    rewrite IH by done. done.
Qed.

Lemma split_ws_word (w : str) : Spec.is_word w -> Py.split_ws w = [w].
Proof.
  intros [Hne Hall]. induction w as [|c w IH]; [done|].
  simpl in Hall. apply andb_prop in Hall as [Hc Hall].
  apply negb_true_iff in Hc. cbn [Py.split_ws]. rewrite Hc.
  destruct w as [|c' w']; [done|].
  assert (Hc' : Py.is_space c' = false).
  { simpl in Hall. apply andb_prop in Hall as [Hc' _].
    by apply negb_true_iff in Hc'. }
  rewrite Hc'. by rewrite IH.
Qed.

Lemma split_ws_join (ws : list str) :
  Forall Spec.is_word ws -> Py.split_ws (Py.join $" " ws) = ws.
Proof.
  induction ws as [|w ws IH]; intros Hws; [done|].
  apply Forall_cons in Hws as [Hw Hws].
  destruct ws as [|w' ws']; [by apply split_ws_word|].
  change (Py.join $" " (w :: w' :: ws'))
    with (w ++ " "%char :: Py.join $" " (w' :: ws')).
  rewrite split_ws_word_more by done. by rewrite IH.
Qed.

Lemma split_ws_upper (s : str) :
  Py.split_ws (Py.upper s) = Py.upper <$> Py.split_ws s.
Proof.
  induction s as [|c s IH]; [done|].
  change (Py.upper (c :: s)) with (Py.upper_ascii c :: Py.upper s).
  cbn [Py.split_ws]. rewrite upper_space.
  destruct (Py.is_space c); [done|].
  destruct s as [|c' s']; [done|].
  change (Py.upper (c' :: s')) with (Py.upper_ascii c' :: Py.upper s') in *.
  cbv iota. rewrite upper_space. destruct (Py.is_space c'); [by rewrite IH|].
  rewrite IH. by destruct (Py.split_ws (c' :: s')).
Qed.

Lemma upper_join (ws : list str) :
  Py.upper (Py.join $" " ws) = Py.join $" " (Py.upper <$> ws).
Proof.
  induction ws as [|w ws IH]; [done|].
  destruct ws as [|w' ws']; [done|].
  change (Py.join $" " (w :: w' :: ws'))
    with (w ++ " "%char :: Py.join $" " (w' :: ws')).
  unfold Py.upper at 1. rewrite fmap_app, fmap_cons. fold (Py.upper w).
  fold (Py.upper (Py.join $" " (w' :: ws'))). rewrite IH. done.
Qed.

Lemma upper_word (w : str) : Spec.is_word w -> Spec.is_word (Py.upper w).
Proof.
  intros [Hne Hall]. split; [by destruct w|].
  unfold Py.upper. rewrite forallb_forall in *. intros x Hx.
  apply list_elem_of_In, list_elem_of_fmap in Hx as (y & -> & Hy).
  rewrite upper_space. apply Hall. by apply list_elem_of_In.
Qed.

Lemma normalize_words (data : str) :
  normalize_data data = Py.join $" " (Py.upper <$> Py.split_ws data)
  /\ Forall Spec.is_word (Py.upper <$> Py.split_ws data).
Proof.
  unfold normalize_data. rewrite split_ws_upper. split; [done|].
  apply Forall_fmap. eapply Forall_impl; [apply split_ws_words|].
  intros w. apply upper_word.
Qed.

(** X4.  Normalizing a normalized text changes nothing. *)
Theorem normalize_data_idempotent (data : str) :
  normalize_data (normalize_data data) = normalize_data data.
Proof.
  destruct (normalize_words data) as [Hn Hws].
  rewrite Hn at 1. unfold normalize_data at 1.
  rewrite upper_join, split_ws_join.
  - rewrite Hn. f_equal. rewrite <- list_fmap_compose.
    apply list_fmap_ext. intros i w _. apply upper_idem.
  - apply Forall_fmap. eapply Forall_impl; [exact Hws|].
    intros w. apply upper_word.
Qed.

Lemma word_no_space (w : str) :
  Spec.is_word w -> forallb (fun c => negb (Ascii.eqb c " ")) w = true.
Proof.
  intros [_ Hall]. rewrite forallb_forall in *. intros x Hx.
  apply Hall in Hx. destruct (Ascii.eqb_spec x " ") as [->|]; done.
Qed.

Lemma split_join_words (w : str) (ws : list str) :
  Forall Spec.is_word (w :: ws) ->
  Py.split " " (Py.join $" " (w :: ws)) = w :: ws.
Proof.
  revert w. induction ws as [|w' ws IH]; intros w Hws.
  - apply Forall_cons in Hws as [Hw _]. apply split_none.
    by apply word_no_space.
  - apply Forall_cons in Hws as [Hw Hws].
    change (Py.join $" " (w :: w' :: ws))
      with (w ++ " "%char :: Py.join $" " (w' :: ws)).
    rewrite split_first by (by apply word_no_space). by rewrite IH.
Qed.

(** X5.  A normalized text is empty, or cut at its single spaces it
    gives words that are not empty, hold no whitespace and no
    lower-case letter: no space leads, trails or follows a space. *)
Theorem normalize_data_shape (data : str) :
  normalize_data data = []
  \/ Forall (fun w => w <> []
                      /\ Py.upper w = w
                      /\ forallb (fun c => negb (Py.is_space c)) w = true)
            (Py.split " " (normalize_data data)).
Proof.
  destruct (normalize_words data) as [Hn Hws]. rewrite Hn.
  destruct (Py.split_ws data) as [|w ws] eqn:E; [by left|]. right.
  rewrite fmap_cons in *. rewrite split_join_words by done.
  rewrite <- fmap_cons. apply Forall_fmap, Forall_forall. intros x Hx. simpl.
  assert (Hw : Spec.is_word (Py.upper x)).
  { rewrite <- fmap_cons in Hws. rewrite Forall_fmap, Forall_forall in Hws.
    by apply Hws. }
  destruct Hw as [Hne Hall]. split; [done|]. split; [apply upper_idem | done].
Qed.

(** X9.  [issue_identification] returns a volume and a number without
    leading zeros, at most one supplement, and a supplement that is the
    one given by the caller or, when the issue tag has a label and no
    value, that label: a value written after the label in the tag is
    never returned. *)
Theorem issue_identification_shape (volume tag supplement : option str) :
  match issue_identification volume tag supplement with
  | (v, volume_suppl, n, number_suppl) =>
      (forall x, v = Some x -> head x <> Some "0"%char)
      /\ (forall x, n = Some x -> head x <> Some "0"%char)
      /\ (volume_suppl = None \/ number_suppl = None)
      /\ (forall x, volume_suppl = Some x \/ number_suppl = Some x ->
                    supplement = Some x
                    \/ ((parse_issue_tag tag).1.2 = Some x
                        /\ (parse_issue_tag tag).2 = None))
  end.
Proof.
  unfold issue_identification.
  pose proof (parse_issue_tag_value tag) as Hval.
  destruct (parse_issue_tag tag) as [[num label] val]. simpl in Hval.
  set (suppl := if Py.truthy label && negb (Py.truthy val)
                then label else supplement).
  assert (Hsuppl : forall x, suppl = Some x ->
            supplement = Some x \/ (label = Some x /\ val = None)).
  { intros x Hx. unfold suppl in Hx.
    destruct (Py.truthy label) eqn:Hl; simpl in Hx; [|by left].
    destruct val as [[|c v]|]; simpl in Hx; [done | by left | by right]. }
  unfold supplement_type.
  assert (Hzero : forall (o : option str) x,
            Py.lstrip_char "0" <$> o = Some x -> head x <> Some "0"%char).
  { intros [s|] x [= <-]. apply lstrip_char_head. }
  destruct (Py.truthy num); simpl;
    (split; [apply Hzero|]; split; [apply Hzero|]; split; [tauto|]);
    intros x [Hx|Hx]; try done; by apply Hsuppl.
Qed.

Section Frames.
Context {Msg : Type} `{Pickle Msg} (digest : str -> str).


(** The stream after messages were sent one after the other. *)
Lemma send_message_app (stream : str) (m : Msg) :
  send_message stream m digest = stream ++ send_message [] m digest.
Proof. unfold send_message. simpl. by rewrite app_assoc. Qed.

Lemma send_all_app (ms : list Msg) (stream : str) :
  foldl (fun st m => send_message st m digest) stream ms
  = stream ++ foldl (fun st m => send_message st m digest) [] ms.
Proof.
  revert stream. induction ms as [|m ms IH]; intros stream.
  - by rewrite app_nil_r.
  - cbn [foldl]. rewrite IH, (IH (send_message [] m digest)).
    by rewrite (send_message_app stream), <- app_assoc.
Qed.

(** X11.  Messages whose serialized form loads back, sent one after the
    other on a stream, are received all, in the order sent, and then
    the sequence ends. *)
Theorem recv_messages_in_order (ms : list Msg) :
  Forall (fun m => loads (dumps m) = Return m
                   /\ Spec.header_safe (digest (dumps m)) = true) ms ->
  recv_messages (foldl (fun stream m => send_message stream m digest) [] ms)
                digest
  = (ms, Exhausted).
Proof.
  induction ms as [|m ms IH]; intros Hms; [done|].
  apply Forall_cons in Hms as [[Hser Hsafe] Hms].
  cbn [foldl]. rewrite send_all_app.
  rewrite recv_messages_step. unfold send_message at 1. simpl app.
  rewrite <- app_assoc, recv_frame_framed by done.
  rewrite bool_decide_eq_true_2 by done. rewrite Hser.
  cbn [mbind result_bind]. unfold Spec.yield_first. by rewrite IH.
Qed.

End Frames.


Lemma recv_messages_in_order_witness :
  recv_messages
    (foldl (fun stream m => send_message stream m Samples.checksum) []
           [$"hello"; $"world"])
    Samples.checksum
  = ([$"hello"; $"world"], Exhausted).
Proof.
  apply (recv_messages_in_order Samples.checksum [$"hello"; $"world"]).
  repeat constructor.
Defined.

End UtilsMore.

(** * More of balaio.py *)

Module BalaioMore.
Import Balaio BalaioFacts.

(** X16.  A child is force-killed exactly when it never exits, exits
    with status 0, or exits only after the ten polls. *)
Theorem terminate_one_kills_iff (p : Popen) :
  Kill (pid p) ∈ terminate_one p
  <-> exits p = None
      \/ exists k status, exits p = Some (k, status)
                          /\ (status = 0 \/ (10 <= k)%nat).
Proof.
  assert (Hin : Kill (pid p)
                ∈ Terminate (pid p) :: Spec.polls (pid p) 10 ++ [Kill (pid p)]).
  { apply elem_of_cons. right. apply elem_of_app. right. apply list_elem_of_here. }
  destruct (exits p) as [[k status]|] eqn:Hp.
  2: { rewrite terminate_one_never_exits by done. split; [by left | done]. }
  destruct (decide (status = 0)) as [->|Hs].
  { rewrite (terminate_one_zero_exit p k) by done.
    split; [|done]. intros _. right. exists k, 0. by split; [|left]. }
  destruct (le_lt_dec 10 k) as [Hk|Hk].
  - split; [intros _; right; exists k, status; by split; [|right]|].
    intros _. unfold terminate_one. rewrite wait_all_falsy; [done|].
    intros t Ht. unfold poll. rewrite Hp.
    destruct (Nat.leb_spec k t); [lia | done].
  - split.
    + intros Hkill. exfalso.
      by apply (terminate_one_nonzero_exit p k status Hp Hs Hk).
    + intros [?|(k' & st' & [= <- <-] & [?|?])]; [done | done | lia].
Qed.

Lemma wait_sleeps (p : Popen) (tries elapsed : nat) :
  (length (filter (fun e => e = Sleep) (wait p tries elapsed)) <= tries)%nat.
Proof.
  revert elapsed. induction tries as [|n IH]; intros elapsed; cbn [wait].
  - rewrite filter_cons_False by done. rewrite filter_nil. simpl. lia.
  - rewrite filter_cons_False by done.
    destruct (not_ _); [|rewrite filter_nil; simpl; lia].
    rewrite filter_cons_True by done. cbn [length].
    specialize (IH (S elapsed)). lia.
Qed.

(** X17.  [terminate] sleeps at most ten times half a second per
    child. *)
Theorem terminate_sleeps_bounded (procs : list Popen) :
  (length (filter (fun e => e = Sleep) (terminate procs))
   <= 10 * length procs)%nat.
Proof.
  unfold terminate. rewrite <- (length_rev procs).
  induction (rev procs) as [|p ps IH]; [simpl; lia|].
  cbn [flat_map]. rewrite filter_app, length_app.
  change (terminate_one p) with (Terminate (pid p) :: wait p 10 0).
  rewrite filter_cons_False by done.
  pose proof (wait_sleeps p 10 0) as Hw. cbn [length]. lia.
Qed.

(** The calls on one child are those of [wait]. *)
Lemma wait_outcome_calls (p : Popen) (tries elapsed : nat) :
  (wait_outcome p tries elapsed).1 = wait p tries elapsed.
Proof.
  revert elapsed. induction tries as [|n IH]; intros elapsed; [done|].
  cbn [wait_outcome wait]. specialize (IH (S elapsed)).
  destruct (not_ (poll p elapsed)); [|done].
  destruct (wait_outcome p n (S elapsed)) as [calls r]. simpl in *.
  by rewrite IH.
Qed.

Lemma wait_outcome_returns (p : Popen) (tries elapsed : nat) :
  (forall t, (t < elapsed)%nat -> not_ (poll p t) = true) ->
  (forall k, exits p = Some (k, 0%Z) -> (elapsed + tries <= k)%nat) ->
  (wait_outcome p tries elapsed).2 = Return tt.
Proof.
  revert elapsed. induction tries as [|n IH]; intros elapsed Hinv Hlate.
  - cbn [wait_outcome snd]. destruct elapsed as [|last]; [done|].
    cbn [reaped]. rewrite bool_decide_eq_false_2; [done|].
    intros [status Hs]. specialize (Hinv last ltac:(lia)).
    rewrite Hs in Hinv. simpl in Hinv. apply Z.eqb_eq in Hinv as ->.
    unfold poll in Hs. destruct (exits p) as [[k st]|] eqn:E; [|done].
    destruct (Nat.leb_spec k last) as [Hk|Hk]; [|done].
    injection Hs as ->. specialize (Hlate k eq_refl). lia.
  - cbn [wait_outcome]. destruct (not_ (poll p elapsed)) eqn:Hp; [|done].
    specialize (IH (S elapsed)).
    destruct (wait_outcome p n (S elapsed)) as [calls r]. simpl in *.
    apply IH.
    + intros t Ht. destruct (decide (t = elapsed)) as [->|]; [done|].
      apply Hinv. lia.
    + intros k Hk. specialize (Hlate k Hk). lia.
Qed.

(** A child that a poll has reaped with status 0 is killed all the same,
    and the kill raises. *)
Lemma wait_outcome_raises (p : Popen) (tries elapsed k : nat) :
  exits p = Some (k, 0%Z) -> (k < elapsed + tries)%nat ->
  (wait_outcome p tries elapsed).2 = Raise (OSError 3).
Proof.
  intros Hk. revert elapsed. induction tries as [|n IH]; intros elapsed Hlt.
  - cbn [wait_outcome snd]. destruct elapsed as [|last]; [lia|].
    cbn [reaped]. rewrite bool_decide_eq_true_2; [done|].
    unfold poll. rewrite Hk. destruct (Nat.leb_spec k last); [by eexists|lia].
  - cbn [wait_outcome].
    assert (Hp : not_ (poll p elapsed) = true).
    { unfold poll. rewrite Hk. by destruct (k <=? elapsed)%nat. }
    rewrite Hp. specialize (IH (S elapsed) ltac:(lia)).
    by destruct (wait_outcome p n (S elapsed)) as [calls r].
Qed.

Lemma wait_outcome_result (p : Popen) :
  (wait_outcome p 10 0).2 = Return tt <-> Spec.no_clean_exit_in_window p.
Proof.
  split.
  - intros Hr k Hk. destruct (Nat.le_gt_cases 10 k) as [|Hlt]; [done|].
    rewrite (wait_outcome_raises p 10 0 k Hk) in Hr by lia. done.
  - intros Hp. apply wait_outcome_returns; [lia|]. intros k Hk.
    specialize (Hp k Hk). lia.
Qed.

Lemma terminate_each_requests (procs : list Popen) :
  Spec.terminate_requests (terminate_each procs).1 `prefix_of` (pid <$> procs)
  /\ ((terminate_each procs).2 = Return tt <->
      Forall Spec.no_clean_exit_in_window procs)
  /\ ((terminate_each procs).2 = Return tt ->
      Spec.terminate_requests (terminate_each procs).1 = pid <$> procs).
Proof.
  induction procs as [|p ps (IHpre & IHret & IHall)].
  - split; [done|]. split; [|done]. split; [constructor|done].
  - cbn [terminate_each].
    pose proof (wait_outcome_calls p 10 0) as Hcalls.
    pose proof (wait_outcome_result p) as Hres.
    destruct (wait_outcome p 10 0) as [calls [[]|e]];
      cbn [fst snd] in Hcalls, Hres.
    + destruct (terminate_each ps) as [calls' r]. cbn [fst snd] in *.
      assert (Hreq : Spec.terminate_requests
                       (Terminate (pid p) :: calls ++ calls')
                     = pid p :: Spec.terminate_requests calls').
      { unfold Spec.terminate_requests. cbn [omap list_omap].
        rewrite omap_app. fold (Spec.terminate_requests calls).
        by rewrite Hcalls, wait_no_request. }
      rewrite Hreq. split; [by apply prefix_cons|]. split.
      * rewrite Forall_cons, <- IHret. split; [intros Hr|by intros [_ Hr]].
        split; [by apply Hres|done].
      * intros Hr. by rewrite IHall.
    + assert (Hreq : Spec.terminate_requests (Terminate (pid p) :: calls)
                     = [pid p]).
      { unfold Spec.terminate_requests. cbn [omap list_omap].
        fold (Spec.terminate_requests calls).
        by rewrite Hcalls, wait_no_request. }
      cbn [fst snd]. rewrite Hreq. split.
      * exists (pid <$> ps). done.
      * split; [|done]. split; [done|]. rewrite Forall_cons. intros [Hp _].
        apply Hres in Hp. done.
Qed.

(** X15.  [terminate] asks the children to terminate in the reverse of
    the order of the list, each of them at most once, and goes no
    further than the first kill that raises.  It returns exactly when no
    child exits with status 0 within the ten polls, and then every child
    has been asked once. *)
Theorem terminate_requests_in_reverse (procs : list Popen) :
  Spec.terminate_requests (terminate_outcome procs).1
    `prefix_of` (pid <$> rev procs)
  /\ ((terminate_outcome procs).2 = Return tt <->
      Forall Spec.no_clean_exit_in_window procs)
  /\ ((terminate_outcome procs).2 = Return tt ->
      Spec.terminate_requests (terminate_outcome procs).1 = pid <$> rev procs).
Proof.
  unfold terminate_outcome.
  destruct (terminate_each_requests (rev procs)) as (Hpre & Hret & Hall).
  split; [done|]. split; [|done]. rewrite Hret.
  rewrite !Forall_forall. split; intros Hp x Hx; apply Hp.
  - apply list_elem_of_In, (proj1 (in_rev procs x)). by apply list_elem_of_In.
  - apply list_elem_of_In, (proj2 (in_rev procs x)). by apply list_elem_of_In.
Qed.

(** With a child that exits cleanly started last, the child started
    before it is never asked to terminate. *)
Lemma terminate_outcome_clean_exit (a : Popen) :
  terminate_outcome [a; Samples.clean_child]
  = (Terminate 7 :: Spec.polls 7 10 ++ [Kill 7], Raise (OSError 3)).
Proof. reflexivity. Qed.

(** The calls made are the first of those [terminate] lists. *)
Lemma terminate_outcome_calls (procs : list Popen) :
  (terminate_outcome procs).1 `prefix_of` terminate procs.
Proof.
  unfold terminate_outcome, terminate.
  induction (rev procs) as [|p ps IH]; [done|].
  cbn [terminate_each flat_map]. unfold terminate_one.
  pose proof (wait_outcome_calls p 10 0) as Hcalls.
  destruct (wait_outcome p 10 0) as [calls [[]|e]];
    cbn [fst] in Hcalls; rewrite <- Hcalls.
  - destruct (terminate_each ps) as [calls' r]. cbn [fst] in *.
    apply prefix_cons. by apply prefix_app.
  - cbn [fst]. apply prefix_cons. by apply prefix_app_r.
Qed.

End BalaioMore.

(** * More of vpipes.py *)

Module VpipesMore.
Import Models Vpipes VpipesFacts.

Section Pipe.
Context {Pkg Data Sess : Type} `{ValidationPipe Pkg Data Sess}.

(** X18.  [transform] returns the item it was given or raises.  The
    savepoint is rolled back only when the notifier was told and the
    call raises; a savepoint is taken only after [validate] ran; and
    when [validate] raises nothing else happens. *)
Theorem transform_outcomes (it : item Pkg Data Sess) :
  ((transform it).2 = Return it \/ exists e, (transform it).2 = Raise e)
  /\ (Rollback ∈ (transform it).1 ->
      exists e, (transform it).2 = Raise e
                /\ exists attempt d s, Tell attempt d s stage ∈ (transform it).1)
  /\ (Savepoint ∈ (transform it).1 -> Validate it ∈ (transform it).1)
  /\ (forall e, validate it = Raise e ->
                forall x, x ∈ (transform it).1 -> x = Validate it).
Proof.
  unfold transform, precondition.
  destruct (decide (is_valid (attempt_of it) = Some true)) as [Hvalid|Hvalid].
  2: { rewrite attempt_is_valid_unmet by done. simpl.
       split; [by left|]. repeat split; intros; set_solver. }
  rewrite attempt_is_valid_met by done.
  destruct it as [a|a pkg data session]; simpl.
  { split; [right; by eexists|]. repeat split; intros; set_solver. }
  destruct (validate _) as [[st descr]|e] eqn:Hv.
  - destruct (tell _ _ _ _ _) as [[]|e]; simpl.
    + split; [by left|]. split; [intros Hr; set_solver|].
      split; [intros _; set_solver | done].
    + split; [right; by eexists|]. split.
      * intros _. exists e. split; [done|]. exists a, descr, st. set_solver.
      * split; [intros _; set_solver | done].
  - simpl. split; [right; by eexists|]. split; [set_solver|].
    split; [set_solver|]. intros e' _ x Hx. set_solver.
Qed.

(** X19.  A bare attempt that passes the gate cannot be indexed: the
    stage raises a [TypeError] before [validate] is called. *)
Theorem transform_bare_valid_raises (a : Attempt) :
  is_valid a = Some true ->
  transform (Bare a)
  = ([], Raise (TypeError $"object does not support indexing")).
Proof.
  intros Hv. unfold transform, precondition.
  by rewrite attempt_is_valid_met.
Qed.

End Pipe.

Lemma transform_bare_valid_raises_witness :
  transform (Bare (Pkg:=unit) (Data:=unit) (Sess:=unit)
                  (Samples.attempt_with (Some true)))
  = ([], Raise (TypeError $"object does not support indexing")).
Proof.
  apply (transform_bare_valid_raises (Samples.attempt_with (Some true))).
  reflexivity.
Defined.

End VpipesMore.

(** * More of checkout.py *)

Module CheckoutMore.
Import Models Checkout CheckoutFacts.

Section Runner.
Context {Front : Type} `{Boundary Front}.

(** X20.  Appending the tuple of a job to the checkout list changes no
    attempt, while appending an attempt sets its [queued_checkout]
    flag; so the list the run loop builds leaves the session as it
    was. *)
Theorem CheckoutList_append_flags (self : list item) (row : nat)
    (rows : list nat) (w : World Front) :
  CheckoutList_append self (Job row) w = (w, Return (self ++ [Job row]))
  /\ CheckoutList_append self (AnAttempt row) w
     = ({| committed := committed w;
           working := alter (set_queued_checkout true) row (working w);
           trace := trace w |},
        Return (self ++ [AnAttempt row]))
  /\ enqueue rows [] w = (w, Return (Job <$> rows)).
Proof.
  split; [done|]. split; [done|]. by rewrite enqueue_jobs.
Qed.

(** X21.  A checkout that raises leaves the stored rows alone and the
    [queued_checkout] flag of every attempt of the session as it was. *)
Theorem checkout_procedure_raise_keeps_flag (it : item)
    (w w' : World Front) (e : exn) :
  checkout_procedure it w = (w', Raise e) ->
  committed w' = committed w
  /\ forall r, queued_checkout <$> working w' !! r
               = queued_checkout <$> working w !! r.
Proof.
  destruct it as [row|row]; [by intros [= <- <-]|].
  unfold checkout_procedure.
  destruct (working w !! row) as [attempt|] eqn:Hrow; [|by intros [= <- <-]].
  rewrite bind_run. cbn [setattr].
  set (w0 := {| committed := committed w; working := _; trace := trace w |}).
  assert (Hq : forall r, queued_checkout <$> working w0 !! r
                         = queued_checkout <$> working w !! r).
  { intros r. unfold w0. simpl. destruct (decide (r = row)) as [->|Hne].
    - rewrite list_lookup_alter_eq, Hrow. done.
    - by rewrite list_lookup_alter_ne. }
  rewrite bind_run.
  destruct (io_only_upload_static_files attempt w0) as [Hc1 Hw1].
  destruct (upload_static_files attempt w0) as [w1 [d|e1]]; simpl in Hc1, Hw1.
  2: { intros [= <- <-]. split; [done|]. intros r. by rewrite Hw1. }
  rewrite bind_run.
  destruct (io_only_upload_meta_front attempt d w1) as [Hc2 Hw2].
  destruct (upload_meta_front attempt d w1) as [w2 [[]|e2]];
    simpl in Hc2, Hw2; [done|].
  intros [= <- <-]. split; [congruence|]. intros r. by rewrite Hw2, Hw1.
Qed.



Lemma checkout_assignments_trans (a b c : Attempt) :
  Spec.checkout_assignments a b -> Spec.checkout_assignments b c ->
  Spec.checkout_assignments a c.
Proof.
  intros Hab Hbc. induction Hbc; [done| |]; by constructor.
Qed.

Lemma Forall2_checkout_assignments_refl (l : list Attempt) :
  Forall2 Spec.checkout_assignments l l.
Proof. induction l; constructor; [constructor|done]. Qed.

Lemma Forall2_checkout_assignments_trans (l1 l2 l3 : list Attempt) :
  Forall2 Spec.checkout_assignments l1 l2 ->
  Forall2 Spec.checkout_assignments l2 l3 ->
  Forall2 Spec.checkout_assignments l1 l3.
Proof.
  intros H12. revert l3. induction H12 as [|a b l1 l2 Hab _ IH]; intros l3 H23.
  - by inversion H23.
  - inversion H23 as [|? c ? l3' Hbc H23']; subst. constructor.
    + by apply (checkout_assignments_trans a b c).
    + by apply IH.
Qed.

Lemma alter_checkout_assignments (f : Attempt -> Attempt) (row : nat)
    (l : list Attempt) :
  (forall a, Spec.checkout_assignments a (f a)) ->
  Forall2 Spec.checkout_assignments l (alter f row l).
Proof.
  intros Hf. revert row. induction l as [|a l IH]; intros row; [constructor|].
  destruct row as [|row]; simpl.
  - constructor; [apply Hf | apply Forall2_checkout_assignments_refl].
  - constructor; [constructor | apply IH].
Qed.

Lemma checkout_procedure_assignments (it : item) (w : World Front) :
  Forall2 Spec.checkout_assignments
    (working w) (working (checkout_procedure it w).1).
Proof.
  destruct it as [row|row]; [apply Forall2_checkout_assignments_refl|].
  unfold checkout_procedure.
  destruct (working w !! row) as [attempt|] eqn:Hrow;
    [|apply Forall2_checkout_assignments_refl].
  rewrite bind_run. cbn [setattr].
  set (w0 := {| committed := committed w; working := _; trace := trace w |}).
  assert (H0 : Forall2 Spec.checkout_assignments (working w) (working w0)).
  { unfold w0. simpl. apply alter_checkout_assignments.
    intros a. do 2 constructor. }
  rewrite bind_run.
  destruct (io_only_upload_static_files attempt w0) as [_ Hw1].
  destruct (upload_static_files attempt w0) as [w1 [d|e1]]; simpl in Hw1.
  2: { simpl. by rewrite Hw1. }
  rewrite bind_run.
  destruct (io_only_upload_meta_front attempt d w1) as [_ Hw2].
  destruct (upload_meta_front attempt d w1) as [w2 [[]|e2]]; simpl in Hw2.
  - simpl. rewrite Hw2, Hw1.
    apply (Forall2_checkout_assignments_trans _ (working w0)); [done|].
    apply alter_checkout_assignments. intros a. do 2 constructor.
  - simpl. by rewrite Hw2, Hw1.
Qed.

Lemma pool_map_assignments (jobs : list item) (order : list nat)
    (w : World Front) :
  Forall2 Spec.checkout_assignments
    (working w) (working (pool_map checkout_procedure jobs order w).1).
Proof.
  revert w. induction order as [|k order IH]; intros w;
    [apply Forall2_checkout_assignments_refl|].
  simpl. destruct (jobs !! k) as [job|]; [|apply IH].
  rewrite bind_run. pose proof (checkout_procedure_assignments job w) as Hj.
  destruct (checkout_procedure job w) as [w0 [[]|e]]; simpl in Hj; [|done].
  apply (Forall2_checkout_assignments_trans _ (working w0)); [done|apply IH].
Qed.

(** X23.  A turn of the run loop that ends without raising keeps every
    attempt of the session in its row and assigns nothing on it but
    [checkout_started_at] and [queued_checkout]: the two columns the
    query filters on are assigned by no statement of the turn. *)
Theorem main_iteration_assigns_checkout_only (order : list nat)
    (w w' : World Front) :
  main_iteration order w = (w', Return tt) ->
  Forall2 Spec.checkout_assignments (working w) (working w').
Proof.
  unfold main_iteration. rewrite bind_run. cbn [query_checkout].
  destruct (eligible_from 0 (working w)) as [|row rows] eqn:Hel.
  { rewrite bind_run. cbn. intros [= <-]. simpl.
    apply Forall2_checkout_assignments_refl. }
  rewrite bind_run. unfold try_except, process_batch.
  rewrite bind_run, enqueue_jobs. cbn [app]. rewrite bind_run.
  pose proof (pool_map_assignments (Job <$> row :: rows) order w) as Hp.
  destruct (pool_map _ _ _ _) as [w1 [[]|e]]; simpl in Hp.
  - cbn. intros [= <-]. by simpl.
  - rewrite bind_run. cbn. done.
Qed.

(** X24.  While no attempt is eligible the run loop only sleeps, the
    configured number of minutes each turn, and touches nothing. *)
Theorem main_loop_idle (fuel turn : nat) (orders : nat -> list nat)
    (w : World Front) :
  eligible_from 0 (working w) = [] ->
  main_loop fuel turn orders w
  = (Spec.with_trace w
       (trace w ++ replicate fuel (Slept (checkout_time * 60))),
     Return tt).
Proof.
  revert turn w. induction fuel as [|fuel IH]; intros turn w Hel.
  - simpl. rewrite app_nil_r. by destruct w.
  - cbn [main_loop]. rewrite bind_run. unfold main_iteration.
    rewrite bind_run. cbn [query_checkout]. rewrite Hel.
    rewrite bind_run. cbn [mret prog_ret time_sleep call].
    rewrite IH by done. unfold Spec.with_trace. simpl.
    by rewrite <- app_assoc.
Qed.

(** The keys of the map of URIs, when the backend takes every upload. *)
Lemma upload_static_files_keys (attempt : Attempt) (w : World Front) :
  Spec.backend_answers ->
  exists d,
    upload_static_files attempt w
    = (Spec.with_trace w
         (trace w
          ++ (Spec.sent_for attempt
                <$> (get_fps (filepath attempt) $"xml"
                     ++ get_fps (filepath attempt) $"pdf"))
          ++ [Sent (zip_files (collect_images attempt IMAGES_EXTENSION))
                   (Spec.static_path attempt NAME_ZIP_FILE)]),
       Return d)
    /\ (d !! $"xml" = None <-> get_fps (filepath attempt) $"xml" = [])
    /\ (d !! $"pdf" = None <-> get_fps (filepath attempt) $"pdf" = [])
    /\ is_Some (d !! $"img").
Proof.
  intros Hsend.
  set (xmls := get_fps (filepath attempt) $"xml").
  set (pdfs := get_fps (filepath attempt) $"pdf").
  unfold upload_static_files, FILES_EXTENSION. cbn [upload_kinds].
  rewrite !bind_run.
  destruct (upload_files_run attempt $"xml" xmls ∅ w Hsend)
    as (d1 & Hrun1 & Hkeys1 & Hlast1).
  fold xmls. rewrite Hrun1.
  set (w1 := Spec.with_trace w _).
  destruct (upload_files_run attempt $"pdf" pdfs d1 w1 Hsend)
    as (d2 & Hrun2 & Hkeys2 & Hlast2).
  fold pdfs. rewrite !bind_run, Hrun2. cbn [mret prog_ret]. rewrite ?bind_run.
  set (w2 := Spec.with_trace w1 _).
  unfold static_send. cbn [call].
  destruct (Hsend (trace w2) (zip_files (collect_images attempt IMAGES_EXTENSION))
              (Spec.static_path attempt NAME_ZIP_FILE)) as [uri_img Himg].
  change (get_static_path STATIC_PATH (aid attempt) NAME_ZIP_FILE)
    with (Spec.static_path attempt NAME_ZIP_FILE).
  rewrite Himg. cbn [mret prog_ret].
  exists (<[$"img" := uri_img]> d2).
  split.
  { unfold mret, prog_ret. f_equal. unfold w2, w1, Spec.with_trace. simpl.
    f_equal. by rewrite fmap_app, <- !app_assoc. }
  assert (Hx : d1 !! $"xml" = None <-> xmls = []).
  { unfold Spec.last_upload in Hlast1. destruct (last xmls) as [f|] eqn:Hl.
    - destruct Hlast1 as (uri & _ & ->). split; [done|]. intros ->. done.
    - apply last_None in Hl. subst d1. by rewrite lookup_empty. }
  assert (Hp : d2 !! $"pdf" = None <-> pdfs = []).
  { unfold Spec.last_upload in Hlast2. destruct (last pdfs) as [f|] eqn:Hl.
    - destruct Hlast2 as (uri & _ & ->). split; [done|]. intros ->. done.
    - apply last_None in Hl. subst d2. rewrite Hkeys1 by done.
      by rewrite lookup_empty. }
  split; [rewrite lookup_insert_ne by done; by rewrite Hkeys2|].
  split; [by rewrite lookup_insert_ne|].
  rewrite lookup_insert_eq. by eexists.
Qed.

(** X22.  When the backend takes every upload and the front matter is
    extracted, the checkout of a package without XML entries, or
    without PDF entries, raises the [KeyError] of the first missing
    kind after every upload was sent: nothing is posted and the flag is
    not cleared. *)
Theorem checkout_procedure_missing_kind (row : nat) (attempt : Attempt)
    (fr : Front) (w : World Front) :
  Spec.backend_answers ->
  working w !! row = Some attempt ->
  extract_front (package_xml (filepath attempt)) = Return fr ->
  get_fps (filepath attempt) $"xml" = []
  \/ get_fps (filepath attempt) $"pdf" = [] ->
  checkout_procedure (Job row) w
  = ({| committed := committed w;
        working := alter (set_checkout_started_at (now (trace w))) row
                         (working w);
        trace :=
          trace w
          ++ (Spec.sent_for attempt
                <$> (get_fps (filepath attempt) $"xml"
                     ++ get_fps (filepath attempt) $"pdf"))
          ++ [Sent (zip_files (collect_images attempt IMAGES_EXTENSION))
                   (Spec.static_path attempt NAME_ZIP_FILE)] |},
     Raise (KeyError (match get_fps (filepath attempt) $"xml" with
                      | [] => $"xml"
                      | _ :: _ => $"pdf"
                      end))).
Proof.
  intros Hsend Hrow Hfront Hmissing. unfold checkout_procedure.
  rewrite Hrow, bind_run. cbn [setattr].
  set (w0 := {| committed := committed w; working := _; trace := trace w |}).
  destruct (upload_static_files_keys attempt w0 Hsend)
    as (d & Hrun & Hxml & Hpdf & Himg).
  rewrite bind_run, Hrun, bind_run.
  unfold upload_meta_front. rewrite bind_run, Hfront. rewrite bind_run.
  unfold getitem at 1.
  destruct (get_fps (filepath attempt) $"xml") as [|f fs] eqn:Ex.
  - rewrite (proj2 Hxml) by done. done.
  - destruct (d !! $"xml") as [ux|] eqn:Edx.
    2: { by pose proof (proj1 Hxml eq_refl). }
    cbn [mret prog_ret]. rewrite bind_run. unfold getitem at 1.
    destruct Hmissing as [?|Hp]; [done|].
    rewrite (proj2 Hpdf) by done. done.
Qed.

End Runner.

Lemma checkout_procedure_raise_keeps_flag_witness :
  committed (checkout_procedure (Job 1) Samples.three_ready).1
  = committed Samples.three_ready
  /\ forall r,
       queued_checkout
         <$> working (checkout_procedure (Job 1) Samples.three_ready).1 !! r
       = queued_checkout <$> working Samples.three_ready !! r.
Proof.
  apply (checkout_procedure_raise_keeps_flag (Job 1) Samples.three_ready
           (checkout_procedure (Job 1) Samples.three_ready).1
           (KeyError $"pdf")).
  reflexivity.
Defined.

Lemma checkout_procedure_missing_kind_witness :
  (checkout_procedure (Job 1) Samples.three_ready).2
  = Raise (KeyError $"pdf").
Proof.
  rewrite (checkout_procedure_missing_kind 1 (Samples.ready $"/in/nopdf.zip")
             tt Samples.three_ready).
  - reflexivity.
  - intros tr body path. eexists. reflexivity.
  - reflexivity.
  - reflexivity.
  - right. reflexivity.
Defined.

Lemma main_iteration_assigns_checkout_only_witness :
  Forall2 Spec.checkout_assignments
    (working Samples.two_ready)
    (working (main_iteration [1; 0]%nat Samples.two_ready).1).
Proof.
  apply (main_iteration_assigns_checkout_only [1; 0]%nat Samples.two_ready
           (main_iteration [1; 0]%nat Samples.two_ready).1).
  reflexivity.
Defined.

Lemma main_loop_idle_witness :
  main_loop 3 0 (fun _ => []) Samples.none_ready
  = (Spec.with_trace Samples.none_ready
       (trace Samples.none_ready
        ++ replicate 3 (Slept (checkout_time * 60))),
     Return tt).
Proof.
  apply (main_loop_idle 3 0 (fun _ => []) Samples.none_ready). reflexivity.
Defined.

End CheckoutMore.
